(** * foundation: bounded blocking queue, cancellable ticker, TCP socket

    A shallow embedding of three translation units of the repository

    - [concurrency/concurrent_queue/array_blocking_queue.hpp]
    - [concurrency/src/time_ticker.cpp]
    - [net/src/socket.cpp]

    followed by the theorems that settle the specification's statements
    about them.  Part I holds the embedding (one module per class), Part II
    the theorems. *)

From Stdlib Require Import ZArith Lia Bool.
From stdpp Require Import base list gmap strings.

#[local] Open Scope Z_scope.

(* ===================================================================== *)
(** * Part I: the embedding                                               *)
(* ===================================================================== *)

(** ** Machine integers

    [std::size_t] is an unsigned 64-bit integer: every arithmetic result is
    reduced modulo [2^64].  [int] results of system calls are kept as plain
    [Z]; the code only compares them with constants. *)

Definition SIZE_WIDTH : Z := 64.

Definition size_t (z : Z) : Z := z mod 2 ^ SIZE_WIDTH.

(* ===================================================================== *)
(** ** ArrayBlockingQueue<T, N>                                           *)
(* ===================================================================== *)

Module ArrayBlockingQueue.

Section definitions.

Context {T : Type}.

(** The object: the five data members that carry state.  [_mutex] is [true]
    while the [std::mutex] is held.  The two condition variables carry no
    state of their own that any method reads; they appear below only through
    their wait and notify operations. *)
Record queue : Type := Queue {
  _queue : list T;
  _mutex : bool;
  _put_idx : Z;
  _take_idx : Z;
  _count : Z
}.

(** What a call does when it is run on its own thread against the object:
    it returns a value and leaves a new state, or it never returns
    ([Blocks]) and leaves the object in the state in which it sleeps. *)
Inductive outcome (A : Type) : Type :=
| Returns (a : A) (q : queue)
| Blocks (q : queue).

Definition M (A : Type) : Type := queue -> outcome A.

Definition ret {A : Type} (a : A) : M A := fun q => Returns A a q.

Definition bind {A B : Type} (m : M A) (k : A -> M B) : M B :=
  fun q =>
    match m q with
    | Returns _ a q' => k a q'
    | Blocks _ q' => Blocks B q'
    end.

Definition read {A : Type} (f : queue -> A) : M A := fun q => Returns A (f q) q.

Definition state_of {A : Type} (o : outcome A) : queue :=
  match o with
  | Returns _ _ q => q
  | Blocks _ q => q
  end.

Definition set_mutex (b : bool) (q : queue) : queue :=
  Queue (_queue q) b (_put_idx q) (_take_idx q) (_count q).

(** *** std::mutex and std::condition_variable

    [lock] on a held mutex never returns: between whole calls the mutex is
    held only when a call has returned without releasing it, and nothing
    releases it then.  [try_lock] reports failure instead.

    A thread that sleeps in a condition wait has released the mutex; while
    it sleeps, calls of other threads act on the object ([others]); to
    wake it must take the mutex again, which never happens when another
    thread has kept it. *)

Definition lock : M unit :=
  fun q => if _mutex q then Blocks unit q else Returns unit tt (set_mutex true q).

Definition try_lock : M bool :=
  fun q => if _mutex q then Returns bool false q else Returns bool true (set_mutex true q).

Definition unlock : M unit := fun q => Returns unit tt (set_mutex false q).

Definition sleep (others : queue -> queue) : M unit :=
  fun q =>
    let q' := others (set_mutex false q) in
    if _mutex q' then Blocks unit q' else Returns unit tt (set_mutex true q').

(** [cv.wait(lock, pred)] is [while (!pred()) wait(lock);].  [sleeps] lists
    what happens during each sleep, in order; when the list is exhausted
    nothing ever wakes the thread again. *)
Fixpoint cv_wait (pred : queue -> bool) (sleeps : list (queue -> queue)) : M unit :=
  fun q =>
    if pred q then Returns unit tt q
    else
      match sleeps with
      | [] => Blocks unit (set_mutex false q)
      | others :: sleeps' => bind (sleep others) (fun _ => cv_wait pred sleeps') q
      end.

(** What [wait_until(lock, abs_time)] returns. *)
Inductive cv_status : Type :=
| no_timeout
| timeout.

(** [cv.wait_for(lock, d, pred)] is
    [while (!pred()) if (wait_until(lock, now + d) == cv_status::timeout)
    return pred(); return true;].  Each sleep comes with the status its
    [wait_until] returns; when the list is exhausted the deadline passes
    in a sleep during which nothing happens.  How many sleeps fit in the
    duration is the scheduler's choice, so the duration itself is not
    consulted. *)
Fixpoint cv_wait_for (wait_duration : Z) (pred : queue -> bool)
    (sleeps : list ((queue -> queue) * cv_status)) : M bool :=
  fun q =>
    if pred q then Returns bool true q
    else
      match sleeps with
      | [] => Returns bool false q
      | (others, st) :: sleeps' =>
        bind (sleep others)
             (fun _ =>
                match st with
                | timeout => read pred
                | no_timeout => cv_wait_for wait_duration pred sleeps'
                end) q
      end.

Definition notify_one : M unit := ret tt.

End definitions.

Arguments queue T : clear implicits.
Arguments outcome T A : clear implicits.
Arguments M T A : clear implicits.
Arguments Returns {T A} a q.
Arguments Blocks {T A} q.

Declare Scope abq_scope.
Delimit Scope abq_scope with abq.
Notation "x <- m ;; k" := (bind m (fun x => k))
  (at level 100, m at next level, right associativity, only parsing) : abq_scope.
Notation "m ;;; k" := (bind m (fun _ => k))
  (at level 100, right associativity, only parsing) : abq_scope.

Section methods.

Context {T : Type}.

(** The template parameter [N] and the value a default-initialised slot
    of the array holds. *)
Variable N : Z.
Variable dflt : T.

#[local] Open Scope abq_scope.

(** A freshly constructed queue: [_put_idx = _take_idx = _count = 0], the
    mutex free, [N] default-initialised slots. *)
Definition ArrayBlockingQueue : queue T :=
  Queue (replicate (Z.to_nat N) dflt) false 0 0 0.

(** [cap()] is [_queue.max_size()], which for [std::array<T, N>] is [N]. *)
Definition cap (q : queue T) : Z := N.

(** [size()] as written: [this->cap() - _count]. *)
Definition size (q : queue T) : Z := size_t (cap q - _count q).

Definition empty (q : queue T) : bool := _count q =? 0.

Definition full (q : queue T) : bool := _count q =? cap q.

(** [insert]: both overloads store the element at [_put_idx], advance the
    index with wrap to [0] at [cap()], and increment [_count].  A store
    outside the array is undefined in C++; here it leaves the list as it
    is, and never happens under the class invariant. *)
Definition insert (ele : T) : M T unit :=
  fun q =>
    let buf := <[Z.to_nat (_put_idx q) := ele]> (_queue q) in
    let p := size_t (_put_idx q + 1) in
    let p' := if p =? cap q then 0 else p in
    Returns tt (Queue buf (_mutex q) p' (_take_idx q) (size_t (_count q + 1))).

(** [remove]: reads the slot at [_take_idx], advances the index with wrap
    and decrements [_count].  The slot keeps its value (moving from a
    trivially copyable [T] copies). *)
Definition remove : M T T :=
  fun q =>
    let ele := default dflt (_queue q !! Z.to_nat (_take_idx q)) in
    let t := size_t (_take_idx q + 1) in
    let t' := if t =? cap q then 0 else t in
    Returns ele (Queue (_queue q) (_mutex q) (_put_idx q) t' (size_t (_count q - 1))).

(** [try_push(T&&)]: [if (_mutex.try_lock() && !full()) { ... }].  The
    conjunction is evaluated left to right; when [try_lock] succeeds and
    the queue is full the body is skipped and the function returns [false]
    from the line after the [if], with no [unlock] on that path. *)
Definition try_push (ele : T) : M T bool :=
  locked <- try_lock ;;
  if locked then
    is_full <- read full ;;
    if negb is_full then
      insert ele ;;;
      unlock ;;;
      notify_one ;;;
      ret true
    else ret false
  else ret false.

(** [try_push(const T&)]: the full test is nested, with its own [unlock]. *)
Definition try_push_const (ele : T) : M T bool :=
  locked <- try_lock ;;
  if locked then
    is_full <- read full ;;
    if is_full then
      unlock ;;;
      ret false
    else
      insert ele ;;;
      unlock ;;;
      notify_one ;;;
      ret true
  else ret false.

(** [try_pop(T &ele)] and [wait_pop(T &ele, d)] write through the reference
    [ele]; the model takes the referenced value and returns the value it
    holds afterwards beside the result. *)
Definition try_pop (ele : T) : M T (bool * T) :=
  locked <- try_lock ;;
  if locked then
    is_empty <- read empty ;;
    if is_empty then
      unlock ;;;
      ret (false, ele)
    else
      ele' <- remove ;;
      unlock ;;;
      notify_one ;;;
      ret (true, ele')
  else ret (false, ele).

(** *** What other threads do during a sleep

    Every method touches the buffer, the indices, the count and the mutex
    only between acquiring and releasing [_mutex], so a whole call of
    another thread acts on the object at one instant, and acts as one of
    the three non-blocking calls does: it inserts when there is room (as a
    [try_push(const T&)]), removes when there is an element (as a
    [try_pop]), does what [try_push(T&&)] does, or changes nothing. *)
Inductive other : Type :=
| other_try_push (ele : T)
| other_try_push_const (ele : T)
| other_try_pop.

Definition other_step (q : queue T) (o : other) : queue T :=
  match o with
  | other_try_push ele => state_of (try_push ele q)
  | other_try_push_const ele => state_of (try_push_const ele q)
  | other_try_pop => state_of (try_pop dflt q)
  end.

Definition others (os : list other) (q : queue T) : queue T := foldl other_step q os.

(** The sleeps of an untimed and of a timed wait. *)
Definition untimed (sleeps : list (list other)) : list (queue T -> queue T) :=
  map others sleeps.

Definition timed (sleeps : list (list other * cv_status))
    : list ((queue T -> queue T) * cv_status) :=
  map (fun s => (others (fst s), snd s)) sleeps.

(** *** The blocking and the timed calls *)

(** The two predicates the waits test: [[this]() { return !full(); }] and
    [[this]() { return !empty(); }]. *)
Definition not_full (q : queue T) : bool := negb (full q).

Definition not_empty (q : queue T) : bool := negb (empty q).

(** [push(T&&)] and [push(const T&)]: the scope of the [unique_lock] ends
    before [notify_one]. *)
Definition push (ele : T) (sleeps : list (list other)) : M T unit :=
  lock ;;;
  cv_wait not_full (untimed sleeps) ;;;
  insert ele ;;;
  unlock ;;;
  notify_one.

Definition push_const (ele : T) (sleeps : list (list other)) : M T unit :=
  lock ;;;
  cv_wait not_full (untimed sleeps) ;;;
  insert ele ;;;
  unlock ;;;
  notify_one.

(** [wait_push], both overloads (the bodies are the same text). *)
Definition wait_push (ele : T) (wait_duration : Z)
    (sleeps : list (list other * cv_status)) : M T bool :=
  lock ;;;
  res <- cv_wait_for wait_duration not_full (timed sleeps) ;;
  (if res : bool then insert ele ;;; notify_one else ret tt) ;;;
  unlock ;;;
  ret res.

Definition wait_push_const (ele : T) (wait_duration : Z)
    (sleeps : list (list other * cv_status)) : M T bool :=
  lock ;;;
  res <- cv_wait_for wait_duration not_full (timed sleeps) ;;
  (if res : bool then insert ele ;;; notify_one else ret tt) ;;;
  unlock ;;;
  ret res.

Definition pop (sleeps : list (list other)) : M T T :=
  lock ;;;
  cv_wait not_empty (untimed sleeps) ;;;
  ele <- remove ;;
  notify_one ;;;
  unlock ;;;
  ret ele.

Definition wait_pop (ele : T) (wait_duration : Z)
    (sleeps : list (list other * cv_status)) : M T (bool * T) :=
  lock ;;;
  res <- cv_wait_for wait_duration not_empty (timed sleeps) ;;
  ele' <- (if res : bool then e <- remove ;; notify_one ;;; ret e else ret ele) ;;
  unlock ;;;
  ret (res, ele').

(** *** Sequences of calls

    A run of whole calls, each blocking or timed call with what goes on
    during its sleeps.  A call that never returns leaves the object as it
    is while the caller sleeps. *)
Inductive call : Type :=
| CPush (ele : T) (sleeps : list (list other))
| CPushConst (ele : T) (sleeps : list (list other))
| CTryPush (ele : T)
| CTryPushConst (ele : T)
| CWaitPush (ele : T) (d : Z) (sleeps : list (list other * cv_status))
| CWaitPushConst (ele : T) (d : Z) (sleeps : list (list other * cv_status))
| CPop (sleeps : list (list other))
| CTryPop (ele : T)
| CWaitPop (ele : T) (d : Z) (sleeps : list (list other * cv_status)).

Definition step (q : queue T) (c : call) : queue T :=
  match c with
  | CPush e sl => state_of (push e sl q)
  | CPushConst e sl => state_of (push_const e sl q)
  | CTryPush e => state_of (try_push e q)
  | CTryPushConst e => state_of (try_push_const e q)
  | CWaitPush e d sl => state_of (wait_push e d sl q)
  | CWaitPushConst e d sl => state_of (wait_push_const e d sl q)
  | CPop sl => state_of (pop sl q)
  | CTryPop e => state_of (try_pop e q)
  | CWaitPop e d sl => state_of (wait_pop e d sl q)
  end.

Definition run (q : queue T) (cs : list call) : queue T := foldl step q cs.

(** The data-model invariant of the specification. *)
Definition invariant (q : queue T) : Prop :=
  0 <= _count q <= N /\ 0 <= _put_idx q < N /\ 0 <= _take_idx q < N.

(** The effects scheduled during the sleeps of a timed call, in order. *)
Definition scheduled (sleeps : list (list other * cv_status)) : list other :=
  concat (map fst sleeps).

(** *** The elements in the queue

    The [i]-th element waiting in the queue is the slot [i] places after
    [_take_idx], wrapping at [N]; [contents] lists the [_count] elements
    that wait, oldest first. *)
Definition slot (q : queue T) (i : nat) : T :=
  default dflt (_queue q !! Z.to_nat ((_take_idx q + Z.of_nat i) mod N)).

Definition contents (q : queue T) : list T :=
  map (slot q) (seq 0 (Z.to_nat (_count q))).

(** What the constructor establishes beyond the specification's invariant:
    the array has [N] slots, and [_put_idx] is [_count] places after
    [_take_idx]. *)
Definition well_formed (q : queue T) : Prop :=
  invariant q /\
  length (_queue q) = Z.to_nat N /\
  _put_idx q = (_take_idx q + _count q) mod N.

(** One thread pushing a list of elements in order, and popping [n] times,
    with no other thread at work. *)
Fixpoint push_all (xs : list T) : M T unit :=
  match xs with
  | [] => ret tt
  | x :: xs' => push x [] ;;; push_all xs'
  end.

Fixpoint pop_n (n : nat) : M T (list T) :=
  match n with
  | O => ret []
  | S n' => x <- pop [] ;; xs <- pop_n n' ;; ret (x :: xs)
  end.

End methods.

End ArrayBlockingQueue.

(* ===================================================================== *)
(** ** Exceptions and results shared by the ticker and the socket        *)
(* ===================================================================== *)

(** The exceptions the two translation units throw, and the abort of a
    failed [assert]. *)
Inductive exn : Type :=
| runtime_error (what : string)
| NetException (what : string)
| assertion_failed.

Inductive result (A : Type) : Type :=
| Normal (a : A)
| Throws (e : exn).

Arguments Normal {A} a.
Arguments Throws {A} e.

(* ===================================================================== *)
(** ** TimeTicker                                                         *)
(* ===================================================================== *)

Module TimeTicker.

(** *** fd_set: a bit per descriptor *)

Definition fd_set : Type := Z.

Definition FD_ZERO : fd_set := 0.

Definition FD_SET (fd : Z) (s : fd_set) : fd_set := Z.lor s (Z.shiftl 1 fd).

Definition FD_ISSET (fd : Z) (s : fd_set) : bool := Z.testbit s fd.

(** [struct timeval] *)
Record Timeout : Type := mkTimeout { tv_sec : Z; tv_usec : Z }.

Definition timeout_us (t : Timeout) : Z := tv_sec t * 1000000 + tv_usec t.

(** *** The operating system's side: one pipe

    The control channel is a POSIX pipe: a byte FIFO with a read end and a
    write end.  What the kernel does during one [select] call is given by a
    [wait_event]: the call fails, no other thread touches the pipe, or
    another thread runs [cancel()] while the call is in progress.  That
    thread's byte reaches the pipe [after_us] microseconds into the wait
    when [0 <= after_us] is below the timeout, and only once the wait is
    over otherwise. *)
Record kernel : Type := Kernel {
  pipe_rd : Z;
  pipe_wr : Z;
  pipe_buf : list Byte.byte
}.

Inductive wait_event : Type :=
| Fails (errno : Z)
| Quiet
| Cancelled (after_us : Z).

Inductive pipe_result : Type :=
| PipeFails (errno : Z)
| PipeOpens (rd wr : Z).

(** The marker [cancel()] writes: the one character of the literal [1]. *)
Definition marker : list Byte.byte := [Byte.x31].

Section ticker.

(** The capacity of a pipe in bytes (65536 on Linux). *)
Variable PIPE_CAPACITY : nat.

(** [pipe(fds)]: returns [0] and the two ends, or [-1]. *)
Definition pipe (o : pipe_result) : Z * (Z * Z) * option kernel :=
  match o with
  | PipeFails _ => (-1, (0, 0), None)
  | PipeOpens rd wr => (0, (rd, wr), Some (Kernel rd wr []))
  end.

(** [write(fd, buf, n)] on the blocking write end: appends when there is
    room; with no room the call never returns ([None]).  A descriptor that
    is not the write end yields [-1]. *)
Definition write (fd : Z) (buf : list Byte.byte) (k : kernel) : option (Z * kernel) :=
  if fd =? pipe_wr k then
    if (length (pipe_buf k) + length buf <=? PIPE_CAPACITY)%nat then
      Some (Z.of_nat (length buf), Kernel (pipe_rd k) (pipe_wr k) (pipe_buf k ++ buf))
    else None
  else Some (-1, k).

Definition readable (k : kernel) : bool :=
  match pipe_buf k with
  | [] => false
  | _ :: _ => true
  end.

(** A timeout with a negative field is one [select] rejects: the call
    returns [-1] ([EINVAL]) at once, every time.  Both constructors accept
    such a timeout. *)
Definition rejected (timeout : Timeout) : bool :=
  (tv_sec timeout <? 0) || (tv_usec timeout <? 0).

(** The other thread's byte arrives while the wait is still on. *)
Definition in_time (timeout : Timeout) (ev : wait_event) : bool :=
  match ev with
  | Cancelled after_us => (0 <=? after_us) && (after_us <? timeout_us timeout)
  | _ => false
  end.

(** The pipe once the other thread's [cancel()] is through: its [write]
    puts the marker in whenever there is room, whether the wait is still
    on or not; with no room that thread stays in [write] and the pipe is
    as it was. *)
Definition arrival (ev : wait_event) (k : kernel) : kernel :=
  match ev with
  | Cancelled _ =>
    match write (pipe_wr k) marker k with
    | Some (_, k') => k'
    | None => k
    end
  | _ => k
  end.

(** [select(nfds, &readfds, NULL, NULL, &timeout)] over this kernel:
    [-1] with the set untouched when the timeout is rejected or the call
    fails; otherwise the read end is reported when it is asked for and
    holds data on entry, or when the byte of a concurrent [cancel()] gets
    in before the deadline; otherwise [0] and the empty set.  [select]
    reads nothing from the pipe, and whatever it returns, the byte of a
    concurrent [cancel()] is in the pipe afterwards. *)
Definition select (nfds : Z) (readfds : fd_set) (timeout : Timeout)
    (ev : wait_event) (k : kernel) : Z * fd_set * kernel :=
  let k' := arrival ev k in
  if rejected timeout then (-1, readfds, k')
  else
    match ev with
    | Fails _ => (-1, readfds, k')
    | _ =>
      let asked := FD_ISSET (pipe_rd k) readfds && (pipe_rd k <? nfds) in
      if asked && (readable k || in_time timeout ev && readable k')
      then (1, FD_SET (pipe_rd k) FD_ZERO, k')
      else (0, FD_ZERO, k')
    end.

(** *** The class *)

Record ticker : Type := Ticker {
  _timeout : Timeout;
  _readfds : fd_set;
  _pipefds : Z * Z
}.


Definition TimeTicker (seconds microSeconds : Z) (o : pipe_result) : result (ticker * kernel) :=
  match pipe o with
  | (pip_ret, fds, Some k) =>
    if negb (pip_ret =? 0) then Throws (runtime_error "TimeTicker create pipe error.")
    else Normal (Ticker (mkTimeout seconds microSeconds) FD_ZERO fds, k)
  | (_, _, None) => Throws (runtime_error "TimeTicker create pipe error.")
  end.

(** [tick()]: the set is cleared and holds the read end only; the timeout
    is copied; [select] runs; [-1] throws; otherwise the answer is
    [FD_ISSET] of the read end in the set [select] left. *)
Definition tick (t : ticker) (ev : wait_event) (k : kernel) : result bool * ticker * kernel :=
  let fds := FD_SET (fst (_pipefds t)) FD_ZERO in
  let timeout := _timeout t in
  let '(ret, fds', k') := select (fst (_pipefds t) + 1) fds timeout ev k in
  let t' := Ticker (_timeout t) fds' (_pipefds t) in
  if ret =? -1 then (Throws (runtime_error "TimeTicker select error."), t', k')
  else (Normal (if FD_ISSET (fst (_pipefds t)) fds' then true else false), t', k').

(** [cancel()]: one [write] of the marker to the write end; its result is
    dropped.  [None]: the call does not return. *)
Definition cancel (t : ticker) (k : kernel) : option kernel :=
  match write (snd (_pipefds t)) marker k with
  | Some (_, k') => Some k'
  | None => None
  end.

(** The wait call of a [tick()] itself fails: [select] rejects the
    ticker's timeout, or reports an error of its own. *)
Definition failed (t : ticker) (ev : wait_event) : bool :=
  rejected (_timeout t) ||
  match ev with
  | Fails _ => true
  | _ => false
  end.

(** A run of [tick()] and [cancel()] calls on one ticker, each [tick()]
    with what happens during its wait: the results of the [tick()] calls in
    order, and the ticker and the kernel left at the end.  A [cancel()]
    that never returns stops only its caller; the pipe stays as it is. *)
Inductive ticker_call : Type :=
| CTick (ev : wait_event)
| CCancel.

Fixpoint calls (t : ticker) (cs : list ticker_call) (k : kernel)
    : list (result bool) * ticker * kernel :=
  match cs with
  | [] => ([], t, k)
  | CTick ev :: cs' =>
    let '(r, t', k') := tick t ev k in
    let '(rs, t'', k'') := calls t' cs' k' in
    (r :: rs, t'', k'')
  | CCancel :: cs' =>
    match cancel t k with
    | Some k' => calls t cs' k'
    | None => calls t cs' k
    end
  end.

Definition tick_fails (t : ticker) (c : ticker_call) : bool :=
  match c with
  | CTick ev => failed t ev
  | CCancel => false
  end.

Definition is_tick (c : ticker_call) : bool :=
  match c with
  | CTick _ => true
  | CCancel => false
  end.

(** Another thread runs [cancel()] during the call. *)
Definition is_cancelled (ev : wait_event) : bool :=
  match ev with
  | Cancelled _ => true
  | _ => false
  end.

(** The read end is readable on entry or becomes so before the configured
    timeout has elapsed. *)
Definition readable_before_timeout (t : ticker) (ev : wait_event) (k : kernel) : bool :=
  readable k || in_time (_timeout t) ev && readable (arrival ev k).

(** The ticker [t] was constructed over the pipe of [k]. *)
Definition owns (t : ticker) (k : kernel) : Prop :=
  0 <= pipe_rd k /\ fst (_pipefds t) = pipe_rd k /\ snd (_pipefds t) = pipe_wr k.

End ticker.

End TimeTicker.

(* ===================================================================== *)
(** ** net::tcp::Socket and Socket::TCPSocketIOTask                       *)
(* ===================================================================== *)

Module Socket.

(** *** Values the socket is built from

    [net/protocol.hpp] and [net/address.hpp] are not part of the three
    files; the code uses a protocol only through [family()], [type()] and
    [protocol()], and an address only through [ip()] and [port()]. *)
Record Protocol : Type := mkProtocol { family : Z; type : Z; protocol : Z }.

Record Address : Type := mkAddress { ip : string; port : Z }.

Record sockaddr_in : Type := mkSockaddr { sin_family : Z; sin_port : Z; sin_addr : Z }.

(** *** The free store and the system-call trace

    [new] and [delete] act on a store of heap objects; every [delete] is
    also logged, so that the number of times a pointer is released can be
    counted.  Every system call and every helper of [net/posix.hpp] that
    reaches the kernel is logged in [syscalls]; every invocation of a
    completion callback is logged in [callbacks]. *)
Inductive object : Type :=
| OProtocol (p : Protocol)
| OAddress (a : Address).

Inductive syscall : Type :=
| sys_socket (family type protocol : Z)
| sys_non_blocking (fd : Z) (non_block : bool)
| sys_shutdown (fd how : Z)
| sys_close (fd : Z)
| sys_connect (fd : Z) (addr : sockaddr_in).

Record world : Type := World {
  heap : gmap positive object;
  deleted : list positive;
  syscalls : list syscall;
  callbacks : list (Z * exn)
}.

Definition new (o : object) (w : world) : positive * world :=
  let p := fresh (dom (heap w)) in
  (p, World (<[p := o]> (heap w)) (deleted w) (syscalls w) (callbacks w)).

Definition delete_ (p : positive) (w : world) : world :=
  World (delete p (heap w)) (deleted w ++ [p]) (syscalls w) (callbacks w).

Definition sys (c : syscall) (w : world) : world :=
  World (heap w) (deleted w) (syscalls w ++ [c]) (callbacks w).

(** How many times pointer [p] has been passed to [delete]. *)
Definition releases (p : positive) (w : world) : nat :=
  length (filter (fun x => x = p) (deleted w)).

(** *** The class *)
Record socket : Type := mkSocket {
  _native_handle : Z;
  _protocol : positive;
  _remote_address : positive;
  _non_blocking : bool;
  _open : bool
}.

Definition SHUT_RD : Z := 0.
Definition SHUT_RDWR : Z := 2.
Definition INADDR_ANY : Z := 0.

(** [htonl] on a little-endian host: the four bytes reversed. *)
Definition htonl (x : Z) : Z :=
  Z.lor (Z.lor (Z.shiftl (Z.land x 255) 24) (Z.shiftl (Z.land x 65280) 8))
        (Z.lor (Z.land (Z.shiftr x 8) 65280) (Z.land (Z.shiftr x 24) 255)).

(** [std::string::empty()] *)
Definition string_empty (s : string) : bool :=
  match s with
  | EmptyString => true
  | String _ _ => false
  end.

(** [void Socket::non_blocking(bool)] *)
Definition set_non_blocking (non_block : bool) (s : socket) (w : world) : socket * world :=
  (mkSocket (_native_handle s) (_protocol s) (_remote_address s) non_block (_open s),
   sys (sys_non_blocking (_native_handle s) non_block) w).

(** [Socket(const ProtocolV4 &, const Address &)] and the [ProtocolV6]
    overload: two allocations, [::socket], the assertion, non-blocking
    mode.  [fd] is what [::socket] returns.  The constructors do not
    mention [_open]; [open_init] is the value its declaration in
    [net/tcp/socket.hpp] gives it. *)
Definition Socket (open_init : bool) (proto : Protocol) (remote : Address)
    (fd : Z) (w : world) : result socket * world :=
  let '(p, w1) := new (OProtocol proto) w in
  let '(a, w2) := new (OAddress remote) w1 in
  let w3 := sys (sys_socket (family proto) (type proto) (protocol proto)) w2 in
  if fd =? -1 then (Throws assertion_failed, w3)
  else
    let '(s, w4) := set_non_blocking true (mkSocket fd p a false open_init) w3 in
    (Normal s, w4).

(** [~Socket() { delete _remote_address; }] *)
Definition destroy (s : socket) (w : world) : world :=
  delete_ (_remote_address s) w.

Definition native_handle (s : socket) : Z := _native_handle s.

Definition shutdown (s : socket) (shut_type : Z) (w : world) : world :=
  if (_native_handle s <? 1) || (shut_type <? SHUT_RD) || (SHUT_RDWR <? shut_type)
  then w
  else sys (sys_shutdown (_native_handle s) shut_type) w.

(** [close()]: [res] is what [::close] returns if it is called, [err] the
    text of [strerror(errno)] then. *)
Definition close (s : socket) (res : Z) (err : string) (w : world)
    : result unit * socket * world :=
  if negb (_open s) || (_native_handle s <? 1) then (Normal tt, s, w)
  else
    let s' := mkSocket (_native_handle s) (_protocol s) (_remote_address s)
                       (_non_blocking s) false in
    let w' := sys (sys_close (_native_handle s)) w in
    if negb (res =? 0) then (Throws (NetException err), s', w')
    else (Normal tt, s', w').

(** A run of [close()] calls on the same socket, each with what [::close]
    would answer; the results in order. *)
Fixpoint closes (s : socket) (os : list (Z * string)) (w : world)
    : list (result unit) * socket * world :=
  match os with
  | [] => ([], s, w)
  | (res, err) :: os' =>
    let '(r, s', w') := close s res err w in
    let '(rs, s'', w'') := closes s' os' w' in
    (r :: rs, s'', w'')
  end.

(** [operator==] *)
Definition eqb (s other : socket) : bool := _native_handle s =? _native_handle other.

Section external.

(** [Posix::sock_address(ip, port, family)] of [net/posix.hpp] and libc's
    [inet_addr]. *)
Variable sock_address : string -> Z -> Z -> sockaddr_in.
Variable inet_addr : string -> Z.

(** [connect()]: [ret] is what [::connect] returns.  A socket whose two
    pointers do not point at live objects of the right kind has no defined
    behaviour ([None]). *)
Definition connect (s : socket) (ret : Z) (w : world) : option (Z * world) :=
  match heap w !! _remote_address s, heap w !! _protocol s with
  | Some (OAddress a), Some (OProtocol p) =>
    let ip := ip a in
    let port := port a in
    let s_addr := sock_address ip port (family p) in
    let s_addr :=
      if string_empty ip
      then mkSockaddr (sin_family s_addr) (sin_port s_addr) (htonl INADDR_ANY)
      else mkSockaddr (sin_family s_addr) (sin_port s_addr) (inet_addr ip) in
    let w' := sys (sys_connect (_native_handle s) s_addr) w in
    Some (ret, w')
  | _, _ => None
  end.

End external.

Section async.

(** The executor and the callback are types of headers outside the three
    files ([IOExecutor], [std::function]); the bodies below never use them,
    so they stay abstract. *)
Context {IOExecutor Callback : Type}.

(** The four bits of [Selectable::OP]. *)
Variables OP_EXCEPT OP_REMOTE_CLOSE OP_READ OP_WRITE : Z.

(** [Socket::recv] and [Socket::send]: empty bodies. *)
Definition recv (s : socket) (data size : Z) (executor : IOExecutor) (cb : Callback)
    (w : world) : socket * IOExecutor * world :=
  (s, executor, w).

Definition send (s : socket) (data size : Z) (executor : IOExecutor) (cb : Callback)
    (w : world) : socket * IOExecutor * world :=
  (s, executor, w).

(** The task keeps a pointer back to its socket and reads only the native
    handle through it; the model keeps the socket it points to. *)
Record TCPSocketIOTask : Type := mkTask {
  _socket : socket;
  _callback : Callback
}.

(** [TCPSocketIOTask::operator()(ops)]: the four tests in order, each with
    an empty branch. *)
Definition run_task (task : TCPSocketIOTask) (ops : Z) (w : world) : world :=
  if negb (Z.land ops OP_EXCEPT =? 0) then w
  else if negb (Z.land ops OP_REMOTE_CLOSE =? 0) then w
  else if negb (Z.land ops OP_READ =? 0) then w
  else if negb (Z.land ops OP_WRITE =? 0) then w
  else w.

Definition interest (task : TCPSocketIOTask) : Z := 0.

Definition task_native_handle (task : TCPSocketIOTask) : Z := native_handle (_socket task).

End async.

(** Modelled from the spec: the executor's registration table that
    [register(selectable)] fills ([IOExecutor] is declared outside the
    three files): the registered native handles, each with the interest
    set of its Selectable. *)
Definition registrations : Type := list (Z * Z).

Definition registered (h op : Z) (e : registrations) : bool :=
  existsb (fun r => (fst r =? h) && negb (Z.land (snd r) op =? 0)) e.

End Socket.

(* ===================================================================== *)
(** * Part II: theorems                                                   *)
(* ===================================================================== *)

(** ** Unsigned arithmetic *)

Lemma size_t_nonneg (z : Z) : 0 <= size_t z.
Proof. unfold size_t, SIZE_WIDTH. apply Z.mod_pos_bound. lia. Qed.

Lemma size_t_le (z : Z) : 0 <= z -> size_t z <= z.
Proof. intros Hz. unfold size_t, SIZE_WIDTH. apply Z.mod_le; lia. Qed.

Lemma size_t_small (z : Z) : 0 <= z < 2 ^ SIZE_WIDTH -> size_t z = z.
Proof. intros Hz. unfold size_t. apply Z.mod_small. exact Hz. Qed.

Lemma size_t_succ_neq (z : Z) : size_t (z + 1) <> z.
Proof.
  unfold size_t, SIZE_WIDTH. intros H.
  assert (Hb : 0 <= z < 2 ^ 64) by (rewrite <- H; apply Z.mod_pos_bound; lia).
  destruct (Z.eq_dec z (2 ^ 64 - 1)) as [-> | Hne].
  - vm_compute in H. discriminate H.
  - rewrite Z.mod_small in H by lia. lia.
Qed.

Lemma size_t_pred_neq (z : Z) : size_t (z - 1) <> z.
Proof.
  unfold size_t, SIZE_WIDTH. intros H.
  assert (Hb : 0 <= z < 2 ^ 64) by (rewrite <- H; apply Z.mod_pos_bound; lia).
  destruct (Z.eq_dec z 0) as [-> | Hne].
  - vm_compute in H. discriminate H.
  - rewrite Z.mod_small in H by lia. lia.
Qed.

(** ** The queue *)

Module ArrayBlockingQueueProofs.

Import ArrayBlockingQueue.

(** Runs a non-blocking method symbolically on the object [q]: splits on
    the mutex, then on the full or empty test. *)
Ltac by_cases q :=
  let buf := fresh "buf" in
  let m := fresh "m" in
  let p := fresh "p" in
  let t := fresh "t" in
  let c := fresh "c" in
  destruct q as [buf m p t c];
  unfold try_push, try_push_const, try_pop,
         bind, lock, try_lock, unlock, notify_one, read, ret;
  simpl; destruct m; [reflexivity |]; simpl;
  unfold full, empty; simpl;
  first [destruct (c =? cap _ _) | destruct (c =? 0)];
  reflexivity.

Section proofs.

Context {T : Type}.
Variable N : Z.
Variable dflt : T.

Implicit Types (q : queue T) (ele : T) (d : Z) (os : list (other (T := T))).

(** *** The mutex flag *)

Lemma set_mutex_id q b : _mutex q = b -> set_mutex b q = q.
Proof. destruct q as [buf m p t c]; simpl. intros ->. reflexivity. Qed.

Lemma set_mutex_twice q b b' : set_mutex b (set_mutex b' q) = set_mutex b q.
Proof. reflexivity. Qed.

Lemma insert_set_mutex ele q b :
  state_of (insert N ele (set_mutex b q)) = set_mutex b (state_of (insert N ele q)).
Proof. reflexivity. Qed.

Lemma remove_set_mutex q b :
  remove N dflt (set_mutex b q) =
    match remove N dflt q with
    | Returns e q' => Returns e (set_mutex b q')
    | Blocks q' => Blocks (set_mutex b q')
    end.
Proof. reflexivity. Qed.

(** *** The non-blocking calls, by cases *)

Lemma try_push_cases ele q :
  try_push N ele q =
    if _mutex q then Returns false q
    else if full N q then Returns false (set_mutex true q)
    else Returns true (state_of (insert N ele q)).
Proof. by_cases q. Qed.

Lemma try_push_const_cases ele q :
  try_push_const N ele q =
    if _mutex q then Returns false q
    else if full N q then Returns false q
    else Returns true (state_of (insert N ele q)).
Proof. by_cases q. Qed.

Lemma try_pop_cases ele q :
  try_pop N dflt ele q =
    if _mutex q then Returns (false, ele) q
    else if empty q then Returns (false, ele) q
    else match remove N dflt q with
         | Returns e q' => Returns (true, e) q'
         | Blocks q' => Blocks q'
         end.
Proof. by_cases q. Qed.

(** *** The invariant *)

Lemma insert_invariant ele q :
  invariant N q -> full N q = false -> invariant N (state_of (insert N ele q)).
Proof.
  unfold invariant, full, insert; simpl; unfold cap.
  intros (Hc & Hp & Ht) Hfull. apply Z.eqb_neq in Hfull.
  pose proof (size_t_nonneg (_count q + 1)).
  pose proof (size_t_le (_count q + 1)).
  pose proof (size_t_nonneg (_put_idx q + 1)).
  pose proof (size_t_le (_put_idx q + 1)).
  destruct (Z.eqb_spec (size_t (_put_idx q + 1)) N); lia.
Qed.

Lemma remove_invariant q :
  invariant N q -> empty q = false -> invariant N (state_of (remove N dflt q)).
Proof.
  unfold invariant, empty, remove; simpl; unfold cap.
  intros (Hc & Hp & Ht) Hempty. apply Z.eqb_neq in Hempty.
  pose proof (size_t_nonneg (_count q - 1)).
  pose proof (size_t_le (_count q - 1)).
  pose proof (size_t_nonneg (_take_idx q + 1)).
  pose proof (size_t_le (_take_idx q + 1)).
  destruct (Z.eqb_spec (size_t (_take_idx q + 1)) N); lia.
Qed.

Lemma set_mutex_invariant b q : invariant N q <-> invariant N (set_mutex b q).
Proof. unfold invariant; simpl. tauto. Qed.

Lemma other_step_invariant q (o : other) :
  invariant N q -> invariant N (other_step N dflt q o).
Proof.
  intros Hq. pose proof (remove_invariant q Hq) as Hrem.
  destruct o as [e | e |]; cbn [other_step];
    rewrite ?try_push_cases, ?try_push_const_cases, ?try_pop_cases;
    destruct (_mutex q); cbn [state_of]; try exact Hq.
  1-2: destruct (full N q) eqn:Hfull; cbn [state_of];
       [ first [ exact Hq | apply set_mutex_invariant; exact Hq ]
       | apply insert_invariant; [exact Hq | exact Hfull] ].
  destruct (empty q) eqn:Hempty; cbn [state_of]; [exact Hq |].
  specialize (Hrem eq_refl).
  destruct (remove N dflt q); cbn [state_of] in *; exact Hrem.
Qed.

Lemma others_invariant os q : invariant N q -> invariant N (others N dflt os q).
Proof.
  unfold others. revert q.
  induction os as [| o os IH]; intros q Hq; simpl; [exact Hq |].
  apply IH, other_step_invariant, Hq.
Qed.

Lemma others_app os os' q :
  others N dflt (os ++ os') q = others N dflt os' (others N dflt os q).
Proof. unfold others. apply foldl_app. Qed.

Lemma others_nil q : others N dflt [] q = q.
Proof. reflexivity. Qed.

(** *** Condition waits

    A wait entered with the mutex held comes back, if it does, with the
    mutex held and the object as the other threads' calls made it; the
    waiting thread itself has changed nothing. *)

Section waits.

Variable pred : queue T -> bool.

Lemma cv_wait_spec (sleeps : list (list other)) q :
  _mutex q = true ->
  match cv_wait pred (untimed N dflt sleeps) q with
  | Returns _ q' =>
    _mutex q' = true /\ pred q' = true /\
    exists os, os `prefix_of` concat sleeps /\
               set_mutex false q' = others N dflt os (set_mutex false q)
  | Blocks q' =>
    exists os, os `prefix_of` concat sleeps /\
               q' = others N dflt os (set_mutex false q)
  end.
Proof.
  revert q. induction sleeps as [| o sleeps IH]; intros q Hm;
    cbn [untimed map cv_wait]; destruct (pred q) eqn:Hp.
  - repeat split; try assumption. exists []. split; [apply prefix_nil | reflexivity].
  - exists []. split; [apply prefix_nil | reflexivity].
  - repeat split; try assumption. exists []. split; [apply prefix_nil | reflexivity].
  - unfold bind, sleep. cbn [concat].
    set (q1 := others N dflt o (set_mutex false q)).
    destruct (_mutex q1) eqn:Hm1.
    + exists o. split; [apply prefix_app_r; reflexivity | reflexivity].
    + specialize (IH (set_mutex true q1) eq_refl).
      fold (untimed N dflt sleeps).
      rewrite set_mutex_twice, (set_mutex_id q1 false Hm1) in IH.
      destruct (cv_wait pred (untimed N dflt sleeps) (set_mutex true q1)) as [[] q' | q'].
      * destruct IH as (Hm' & Hp' & os & Hpre & Heq).
        repeat split; try assumption. exists (o ++ os).
        split; [apply prefix_app; exact Hpre |].
        rewrite others_app. exact Heq.
      * destruct IH as (os & Hpre & Heq). exists (o ++ os).
        split; [apply prefix_app; exact Hpre |].
        rewrite others_app. exact Heq.
Qed.

Lemma cv_wait_for_spec d (sleeps : list (list other * cv_status)) q :
  _mutex q = true ->
  match cv_wait_for d pred (timed N dflt sleeps) q with
  | Returns b q' =>
    _mutex q' = true /\ b = pred q' /\
    exists os, os `prefix_of` scheduled sleeps /\
               set_mutex false q' = others N dflt os (set_mutex false q)
  | Blocks q' =>
    _mutex q' = true /\
    exists os, os `prefix_of` scheduled sleeps /\
               q' = others N dflt os (set_mutex false q)
  end.
Proof.
  revert q. induction sleeps as [| [o st] sleeps IH]; intros q Hm;
    cbn [timed map cv_wait_for fst snd]; destruct (pred q) eqn:Hp.
  - repeat split; try assumption; [congruence |].
    exists []. split; [apply prefix_nil | reflexivity].
  - repeat split; try assumption; [congruence |].
    exists []. split; [apply prefix_nil | reflexivity].
  - repeat split; try assumption; [congruence |].
    exists []. split; [apply prefix_nil | reflexivity].
  - unfold bind, sleep. unfold scheduled. cbn [map fst concat].
    fold (scheduled sleeps).
    set (q1 := others N dflt o (set_mutex false q)).
    destruct (_mutex q1) eqn:Hm1.
    + split; [exact Hm1 |].
      exists o. split; [apply prefix_app_r; reflexivity | reflexivity].
    + destruct st.
      * specialize (IH (set_mutex true q1) eq_refl).
        fold (timed N dflt sleeps).
        rewrite set_mutex_twice, (set_mutex_id q1 false Hm1) in IH.
        destruct (cv_wait_for d pred (timed N dflt sleeps) (set_mutex true q1))
          as [b q' | q'].
        -- destruct IH as (Hm' & Hp' & os & Hpre & Heq).
           repeat split; try assumption. exists (o ++ os).
           split; [apply prefix_app; exact Hpre |].
           rewrite others_app. exact Heq.
        -- destruct IH as (Hm' & os & Hpre & Heq).
           split; [exact Hm' |]. exists (o ++ os).
           split; [apply prefix_app; exact Hpre |].
           rewrite others_app. exact Heq.
      * unfold read. repeat split.
        exists o. split; [apply prefix_app_r; reflexivity |].
        rewrite set_mutex_twice. apply set_mutex_id. exact Hm1.
Qed.

End waits.

Lemma not_full_mutex b q : not_full N (set_mutex b q) = not_full N q.
Proof. reflexivity. Qed.

Lemma not_empty_mutex b q : not_empty (set_mutex b q) = not_empty q.
Proof. reflexivity. Qed.

(** *** The blocking and the timed calls, around their wait *)

Lemma push_unfold ele sleeps q :
  push N dflt ele sleeps q =
    if _mutex q then Blocks q
    else match cv_wait (not_full N) (untimed N dflt sleeps) (set_mutex true q) with
         | Returns _ q1 => Returns tt (set_mutex false (state_of (insert N ele q1)))
         | Blocks q1 => Blocks q1
         end.
Proof.
  unfold push, bind, lock, unlock, notify_one, ret.
  destruct (_mutex q); [reflexivity |].
  destruct (cv_wait (not_full N) _ _) as [[] q1 | q1]; reflexivity.
Qed.

Lemma push_const_unfold ele sleeps q :
  push_const N dflt ele sleeps q = push N dflt ele sleeps q.
Proof. reflexivity. Qed.

Lemma pop_unfold sleeps q :
  pop N dflt sleeps q =
    if _mutex q then Blocks q
    else match cv_wait not_empty (untimed N dflt sleeps) (set_mutex true q) with
         | Returns _ q1 =>
           match remove N dflt q1 with
           | Returns e q2 => Returns e (set_mutex false q2)
           | Blocks q2 => Blocks q2
           end
         | Blocks q1 => Blocks q1
         end.
Proof.
  unfold pop, bind, lock, unlock, notify_one, ret.
  destruct (_mutex q); [reflexivity |].
  destruct (cv_wait not_empty _ _) as [[] q1 | q1]; reflexivity.
Qed.

Lemma wait_push_unfold ele d sleeps q :
  wait_push N dflt ele d sleeps q =
    if _mutex q then Blocks q
    else match cv_wait_for d (not_full N) (timed N dflt sleeps) (set_mutex true q) with
         | Returns res q1 =>
           Returns res (set_mutex false (if res then state_of (insert N ele q1) else q1))
         | Blocks q1 => Blocks q1
         end.
Proof.
  unfold wait_push, bind, lock, unlock, notify_one, ret.
  destruct (_mutex q); [reflexivity |].
  destruct (cv_wait_for d (not_full N) _ _) as [[] q1 | q1]; reflexivity.
Qed.

Lemma wait_push_const_unfold ele d sleeps q :
  wait_push_const N dflt ele d sleeps q = wait_push N dflt ele d sleeps q.
Proof. reflexivity. Qed.

Lemma wait_pop_unfold ele d sleeps q :
  wait_pop N dflt ele d sleeps q =
    if _mutex q then Blocks q
    else match cv_wait_for d not_empty (timed N dflt sleeps) (set_mutex true q) with
         | Returns true q1 =>
           match remove N dflt q1 with
           | Returns e q2 => Returns (true, e) (set_mutex false q2)
           | Blocks q2 => Blocks q2
           end
         | Returns false q1 => Returns (false, ele) (set_mutex false q1)
         | Blocks q1 => Blocks q1
         end.
Proof.
  unfold wait_pop, bind, lock, unlock, notify_one, ret.
  destruct (_mutex q); [reflexivity |].
  destruct (cv_wait_for d not_empty _ _) as [[] q1 | q1]; reflexivity.
Qed.

(** *** Every call keeps the invariant *)

Lemma waited_invariant q q1 os :
  invariant N q ->
  set_mutex false q1 = others N dflt os (set_mutex false (set_mutex true q)) ->
  invariant N q1.
Proof.
  intros Hq Heq. apply (set_mutex_invariant false). rewrite Heq.
  apply others_invariant, set_mutex_invariant, set_mutex_invariant, Hq.
Qed.

Lemma push_invariant ele sleeps q :
  invariant N q -> invariant N (state_of (push N dflt ele sleeps q)).
Proof.
  intros Hq. rewrite push_unfold. destruct (_mutex q); [exact Hq |].
  pose proof (cv_wait_spec (not_full N) sleeps (set_mutex true q) eq_refl) as Hw.
  destruct (cv_wait _ _ _) as [[] q1 | q1]; cbn [state_of].
  - destruct Hw as (_ & Hp & os & _ & Heq).
    apply set_mutex_invariant, insert_invariant.
    + exact (waited_invariant q q1 os Hq Heq).
    + apply negb_true_iff. exact Hp.
  - destruct Hw as (os & _ & ->).
    apply others_invariant, set_mutex_invariant, set_mutex_invariant, Hq.
Qed.

Lemma pop_invariant sleeps q :
  invariant N q -> invariant N (state_of (pop N dflt sleeps q)).
Proof.
  intros Hq. rewrite pop_unfold. destruct (_mutex q); [exact Hq |].
  pose proof (cv_wait_spec not_empty sleeps (set_mutex true q) eq_refl) as Hw.
  destruct (cv_wait _ _ _) as [[] q1 | q1]; cbn [state_of].
  - destruct Hw as (_ & Hp & os & _ & Heq).
    pose proof (remove_invariant q1 (waited_invariant q q1 os Hq Heq)) as Hrem.
    apply negb_true_iff in Hp. specialize (Hrem Hp).
    destruct (remove N dflt q1) as [e q2 | q2]; cbn [state_of] in *;
      [apply set_mutex_invariant |]; exact Hrem.
  - destruct Hw as (os & _ & ->).
    apply others_invariant, set_mutex_invariant, set_mutex_invariant, Hq.
Qed.

Lemma wait_push_invariant ele d sleeps q :
  invariant N q -> invariant N (state_of (wait_push N dflt ele d sleeps q)).
Proof.
  intros Hq. rewrite wait_push_unfold. destruct (_mutex q); [exact Hq |].
  pose proof (cv_wait_for_spec (not_full N) d sleeps (set_mutex true q) eq_refl) as Hw.
  destruct (cv_wait_for _ _ _ _) as [b q1 | q1]; cbn [state_of].
  - destruct Hw as (_ & Hp & os & _ & Heq).
    pose proof (waited_invariant q q1 os Hq Heq) as Hq1.
    apply set_mutex_invariant. destruct b; [| exact Hq1].
    apply insert_invariant; [exact Hq1 |].
    apply negb_true_iff. symmetry. exact Hp.
  - destruct Hw as (_ & os & _ & ->).
    apply others_invariant, set_mutex_invariant, set_mutex_invariant, Hq.
Qed.

Lemma wait_pop_invariant ele d sleeps q :
  invariant N q -> invariant N (state_of (wait_pop N dflt ele d sleeps q)).
Proof.
  intros Hq. rewrite wait_pop_unfold. destruct (_mutex q); [exact Hq |].
  pose proof (cv_wait_for_spec not_empty d sleeps (set_mutex true q) eq_refl) as Hw.
  destruct (cv_wait_for _ _ _ _) as [b q1 | q1]; cbn [state_of].
  - destruct Hw as (_ & Hp & os & _ & Heq).
    pose proof (waited_invariant q q1 os Hq Heq) as Hq1.
    destruct b; [| apply set_mutex_invariant; exact Hq1].
    pose proof (remove_invariant q1 Hq1) as Hrem.
    symmetry in Hp. apply negb_true_iff in Hp. specialize (Hrem Hp).
    destruct (remove N dflt q1) as [e q2 | q2]; cbn [state_of] in *;
      [apply set_mutex_invariant |]; exact Hrem.
  - destruct Hw as (_ & os & _ & ->).
    apply others_invariant, set_mutex_invariant, set_mutex_invariant, Hq.
Qed.

Lemma step_invariant q (c : call) : invariant N q -> invariant N (step N dflt q c).
Proof.
  intros Hq.
  destruct c as [e sl | e sl | e | e | e d sl | e d sl | sl | e | e d sl]; cbn [step].
  - apply push_invariant, Hq.
  - apply push_invariant, Hq.
  - apply (other_step_invariant q (other_try_push e)), Hq.
  - apply (other_step_invariant q (other_try_push_const e)), Hq.
  - apply wait_push_invariant, Hq.
  - apply wait_push_invariant, Hq.
  - apply pop_invariant, Hq.
  - pose proof (remove_invariant q Hq) as Hrem.
    rewrite try_pop_cases. destruct (_mutex q); [exact Hq |].
    destruct (empty q); [exact Hq |]. specialize (Hrem eq_refl).
    destruct (remove N dflt q); exact Hrem.
  - apply wait_pop_invariant, Hq.
Qed.

Lemma constructed_invariant : 0 < N -> invariant N (ArrayBlockingQueue N dflt).
Proof. unfold invariant, ArrayBlockingQueue; simpl. lia. Qed.

(** C5: for a queue of capacity [N], every sequence of push, try_push,
    wait_push, pop, try_pop and wait_pop calls (either overload), with any
    calls of other threads taking effect while a call of the sequence
    sleeps, preserves [0 <= _count <= N] and keeps [_put_idx] and
    [_take_idx] in [[0, N)]. *)
Theorem calls_preserve_invariant q (cs : list call) :
  invariant N q -> invariant N (run N dflt q cs).
Proof.
  unfold run. revert q.
  induction cs as [| c cs IH]; intros q Hq; simpl.
  - exact Hq.
  - apply IH. apply step_invariant. exact Hq.
Qed.

(** *** Timed calls *)

Lemma insert_changes_count ele q : _count (state_of (insert N ele q)) <> _count q.
Proof. unfold insert; simpl. apply size_t_succ_neq. Qed.

Lemma remove_changes_count q : _count (state_of (remove N dflt q)) <> _count q.
Proof. unfold remove; simpl. apply size_t_pred_neq. Qed.

(** C9: a [wait_push] (either overload) that returns, returns [true] with
    exactly its element inserted, or [false] having changed nothing:
    buffer, indices, count and mutex are then as the calls of other threads
    during its sleeps left them (as they were on entry when no such call
    took effect, see [timed_calls_undisturbed]).  It returns [true] exactly
    when it has changed the state.  [wait_pop] likewise: [true] with
    exactly the removal done and the removed element stored through [ele],
    [false] with the state and [ele] untouched.  A timed call fails to
    return only when the mutex is kept by another call. *)
Theorem timed_calls_all_or_nothing ele d (sleeps : list (list other * cv_status)) q :
  match wait_push N dflt ele d sleeps q with
  | Returns b q' =>
    wait_push_const N dflt ele d sleeps q = Returns b q' /\
    exists os,
      os `prefix_of` scheduled sleeps /\
      b = not_full N (others N dflt os q) /\
      (b = true -> q' = state_of (insert N ele (others N dflt os q))) /\
      (b = false -> q' = others N dflt os q) /\
      (b = true <-> q' <> others N dflt os q)
  | Blocks q' => _mutex q' = true
  end /\
  match wait_pop N dflt ele d sleeps q with
  | Returns (b, e') q' =>
    exists os,
      os `prefix_of` scheduled sleeps /\
      b = not_empty (others N dflt os q) /\
      (b = true -> remove N dflt (others N dflt os q) = Returns e' q') /\
      (b = false -> q' = others N dflt os q /\ e' = ele) /\
      (b = true <-> q' <> others N dflt os q)
  | Blocks q' => _mutex q' = true
  end.
Proof.
  destruct (_mutex q) eqn:Hm.
  { rewrite wait_push_unfold, wait_pop_unfold, Hm. split; exact Hm. }
  split.
  - change (wait_push_const N dflt ele d sleeps q)
      with (wait_push N dflt ele d sleeps q).
    rewrite wait_push_unfold, Hm.
    pose proof (cv_wait_for_spec (not_full N) d sleeps (set_mutex true q) eq_refl) as Hw.
    rewrite set_mutex_twice, (set_mutex_id q false Hm) in Hw.
    destruct (cv_wait_for _ _ _ _) as [b q1 | q1].
    + destruct Hw as (_ & Hp & os & Hpre & Heq).
      split; [reflexivity |]. exists os. split; [exact Hpre |].
      rewrite <- Heq, not_full_mutex. split; [exact Hp |].
      destruct b.
      * repeat split; try discriminate; try reflexivity.
        intros _ Hc. apply (insert_changes_count ele q1).
        apply (f_equal _count) in Hc. exact Hc.
      * repeat split; try discriminate; try reflexivity.
        intros Hc. contradiction Hc. reflexivity.
    + destruct Hw as (Hm1 & _). exact Hm1.
  - rewrite wait_pop_unfold, Hm.
    pose proof (cv_wait_for_spec not_empty d sleeps (set_mutex true q) eq_refl) as Hw.
    rewrite set_mutex_twice, (set_mutex_id q false Hm) in Hw.
    destruct (cv_wait_for _ _ _ _) as [b q1 | q1].
    + destruct Hw as (_ & Hp & os & Hpre & Heq).
      destruct b.
      * pose proof (remove_changes_count q1) as Hne.
        pose proof (remove_set_mutex q1 false) as Hrm.
        destruct (remove N dflt q1) as [e q2 | q2] eqn:Hrem;
          [| unfold remove in Hrem; discriminate Hrem].
        exists os. split; [exact Hpre |].
        rewrite <- Heq, not_empty_mutex. split; [exact Hp |].
        split; [intros _; exact Hrm |]. split; [discriminate |].
        split; [| intros _; reflexivity].
        intros _ Hc. apply Hne. apply (f_equal _count) in Hc. exact Hc.
      * exists os. split; [exact Hpre |].
        rewrite <- Heq, not_empty_mutex. split; [exact Hp |].
        repeat split; try discriminate; try reflexivity.
        intros Hc. contradiction Hc. reflexivity.
    + destruct Hw as (Hm1 & _). exact Hm1.
Qed.

(** Left alone for the whole duration, a timed call decides on the state
    it finds: [false] and no change on a full (empty) queue. *)
Lemma timed_calls_undisturbed ele d (sleeps : list (list other * cv_status)) q :
  _mutex q = false -> scheduled sleeps = [] ->
  wait_push N dflt ele d sleeps q =
    (if full N q then Returns false q else Returns true (state_of (insert N ele q))) /\
  wait_pop N dflt ele d sleeps q =
    (if empty q then Returns (false, ele) q
     else match remove N dflt q with
          | Returns e q' => Returns (true, e) q'
          | Blocks q' => Blocks q'
          end).
Proof.
  intros Hm Hs.
  assert (Hnil : forall os, os `prefix_of` scheduled sleeps -> others N dflt os q = q).
  { intros os Hpre. rewrite Hs in Hpre. apply prefix_nil_inv in Hpre. subst os.
    reflexivity. }
  split.
  - rewrite wait_push_unfold, Hm.
    pose proof (cv_wait_for_spec (not_full N) d sleeps (set_mutex true q) eq_refl) as Hw.
    rewrite set_mutex_twice, (set_mutex_id q false Hm) in Hw.
    destruct (cv_wait_for _ _ _ _) as [b q1 | q1].
    + destruct Hw as (_ & Hp & os & Hpre & Heq). rewrite (Hnil os Hpre) in Heq.
      rewrite <- (not_full_mutex false), Heq in Hp. unfold not_full in Hp.
      destruct (full N q); simpl in Hp; subst b; rewrite <- Heq; reflexivity.
    + destruct Hw as (Hm1 & os & Hpre & Heq). rewrite (Hnil os Hpre) in Heq.
      subst q1. rewrite Hm in Hm1. discriminate Hm1.
  - rewrite wait_pop_unfold, Hm.
    pose proof (cv_wait_for_spec not_empty d sleeps (set_mutex true q) eq_refl) as Hw.
    rewrite set_mutex_twice, (set_mutex_id q false Hm) in Hw.
    destruct (cv_wait_for _ _ _ _) as [b q1 | q1].
    + destruct Hw as (_ & Hp & os & Hpre & Heq). rewrite (Hnil os Hpre) in Heq.
      rewrite <- (not_empty_mutex false), Heq in Hp. unfold not_empty in Hp.
      pose proof (remove_set_mutex q1 false) as Hrm. rewrite Heq in Hrm.
      destruct (empty q); simpl in Hp; subst b.
      * rewrite Heq. reflexivity.
      * destruct (remove N dflt q1) as [e q2 | q2] eqn:Hrem;
          [| unfold remove in Hrem; discriminate Hrem].
        rewrite Hrm. reflexivity.
    + destruct Hw as (Hm1 & os & Hpre & Heq). rewrite (Hnil os Hpre) in Heq.
      subst q1. rewrite Hm in Hm1. discriminate Hm1.
Qed.

(** A timed call that finds the mutex held never returns: it is the
    acquisition of the lock that waits, and the duration does not bound
    it. *)
Lemma timed_calls_wait_for_the_mutex ele d sleeps q :
  _mutex q = true ->
  wait_push N dflt ele d sleeps q = Blocks q /\ wait_pop N dflt ele d sleeps q = Blocks q.
Proof.
  intros Hm. rewrite wait_push_unfold, wait_pop_unfold, Hm. split; reflexivity.
Qed.

End proofs.

(** *** [size()] *)

Lemma size_is_free_slots {T : Type} (N : Z) (q : queue T) :
  N < 2 ^ SIZE_WIDTH -> invariant N q -> size N q = N - _count q.
Proof.
  unfold invariant, size, cap. intros HN (Hc & _). apply size_t_small. lia.
Qed.

Lemma size_bounds {T : Type} (N : Z) (q : queue T) :
  N < 2 ^ SIZE_WIDTH -> invariant N q -> 0 <= size N q <= N.
Proof.
  intros HN Hq. rewrite (size_is_free_slots N q HN Hq).
  destruct Hq as (Hc & _). lia.
Qed.

Lemma size_is_count_iff_half_full {T : Type} (N : Z) (q : queue T) :
  N < 2 ^ SIZE_WIDTH -> invariant N q -> (size N q = _count q <-> N = 2 * _count q).
Proof.
  intros HN Hq. rewrite (size_is_free_slots N q HN Hq). lia.
Qed.

(** C1 (the code at the failing input): on a freshly constructed queue of
    capacity 2 the count is 0 and [size()] returns 2; after one [push] the
    count is 1 and [size()] returns 1; after two the count is 2 and
    [size()] returns 0. *)
Theorem size_of_fresh_queue_is_capacity :
  let q0 := ArrayBlockingQueue 2 0 in
  let q1 := state_of (push 2 0 7 [] q0) in
  let q2 := state_of (push 2 0 8 [] q1) in
  (_count q0 = 0 /\ size 2 q0 = 2) /\
  (_count q1 = 1 /\ size 2 q1 = 1) /\
  (_count q2 = 2 /\ size 2 q2 = 0).
Proof. cbv zeta. repeat split; vm_compute; reflexivity. Qed.

(** *** The capacity-2 example *)

Lemma try_push_full_keeps_mutex {T : Type} (N : Z) (ele : T) (q : queue T) :
  _mutex q = false -> full N q = true ->
  try_push N ele q = Returns false (set_mutex true q) /\
  try_push_const N ele q = Returns false q.
Proof.
  intros Hm Hf. rewrite try_push_cases, try_push_const_cases, Hm, Hf.
  split; reflexivity.
Qed.

(** C2 (the code at the failing input): on a fresh queue of capacity 2
    used by one thread, [push(1)] and [push(2)] return; [try_push(3)],
    which takes the [T&&] overload, returns [false] and leaves the mutex
    held; the [pop()] that follows never returns, and a further
    [try_push(3)] fails on the mutex. *)
Theorem capacity_two_example_rvalue :
  let q0 := ArrayBlockingQueue 2 0 in
  let q1 := Queue [1; 0] false 1 0 1 in
  let q2 := Queue [1; 2] false 0 0 2 in
  let q3 := Queue [1; 2] true 0 0 2 in
  push 2 0 1 [] q0 = Returns tt q1 /\
  push 2 0 2 [] q1 = Returns tt q2 /\
  try_push 2 3 q2 = Returns false q3 /\
  pop 2 0 [] q3 = Blocks q3 /\
  try_push 2 3 q3 = Returns false q3.
Proof. cbv zeta. repeat split; vm_compute; reflexivity. Qed.

(** The same sequence through the [const T&] overload of [try_push] runs
    as the example says. *)
Lemma capacity_two_example_lvalue :
  let q0 := ArrayBlockingQueue 2 0 in
  let q1 := Queue [1; 0] false 1 0 1 in
  let q2 := Queue [1; 2] false 0 0 2 in
  let q4 := Queue [1; 2] false 0 1 1 in
  let q5 := Queue [3; 2] false 1 1 2 in
  let q6 := Queue [3; 2] false 1 0 1 in
  let q7 := Queue [3; 2] false 1 1 0 in
  push_const 2 0 1 [] q0 = Returns tt q1 /\
  push_const 2 0 2 [] q1 = Returns tt q2 /\
  try_push_const 2 3 q2 = Returns false q2 /\
  pop 2 0 [] q2 = Returns 1 q4 /\
  try_push_const 2 3 q4 = Returns true q5 /\
  pop 2 0 [] q5 = Returns 2 q6 /\
  pop 2 0 [] q6 = Returns 3 q7.
Proof. cbv zeta. repeat split; vm_compute; reflexivity. Qed.

(** The mutex that [try_push(T&&)] keeps also stops a thread that sleeps
    in [pop()] on the other side: a consumer waiting on an empty queue of
    capacity 1, a producer's [try_push(const T&)] filling it and a second
    producer's [try_push(T&&)] finding it full; the consumer cannot take
    the mutex to wake up. *)
Lemma sleeping_pop_never_wakes :
  pop 1 0 [[other_try_push_const 5; other_try_push 6]] (ArrayBlockingQueue 1 0)
  = Blocks (Queue [5] true 0 0 1).
Proof. vm_compute. reflexivity. Qed.

(** Witnesses. *)

Lemma calls_preserve_invariant_witness :
  invariant 2
    (run 2 0 (ArrayBlockingQueue 2 0)
       [CPush 1 []; CPushConst 2 []; CTryPushConst 3;
        CWaitPush 4 50 [([other_try_pop], no_timeout)];
        CPop []; CTryPush 3; CWaitPop 0 50 []; CTryPop 0;
        CWaitPushConst 5 50 [([], timeout)];
        CPush 6 [[other_try_push_const 8]; [other_try_pop]]; CTryPush 7]).
Proof.
  apply calls_preserve_invariant. unfold invariant. simpl. lia.
Defined.

Lemma timed_calls_all_or_nothing_witness :
  let q := Queue [1; 2] false 0 0 2 in
  let sleeps := [([other_try_push_const 9], no_timeout); ([other_try_pop], timeout)] in
  match wait_push 2 0 3 50 sleeps q with
  | Returns b q' =>
    wait_push_const 2 0 3 50 sleeps q = Returns b q' /\
    exists os,
      os `prefix_of` scheduled sleeps /\
      b = not_full 2 (others 2 0 os q) /\
      (b = true -> q' = state_of (insert 2 3 (others 2 0 os q))) /\
      (b = false -> q' = others 2 0 os q) /\
      (b = true <-> q' <> others 2 0 os q)
  | Blocks q' => _mutex q' = true
  end /\
  match wait_pop 2 0 3 50 sleeps q with
  | Returns (b, e') q' =>
    exists os,
      os `prefix_of` scheduled sleeps /\
      b = not_empty (others 2 0 os q) /\
      (b = true -> remove 2 0 (others 2 0 os q) = Returns e' q') /\
      (b = false -> q' = others 2 0 os q /\ e' = 3) /\
      (b = true <-> q' <> others 2 0 os q)
  | Blocks q' => _mutex q' = true
  end.
Proof.
  apply (timed_calls_all_or_nothing 2 0 3 50
           [([other_try_push_const 9], no_timeout); ([other_try_pop], timeout)]
           (Queue [1; 2] false 0 0 2)).
Defined.

End ArrayBlockingQueueProofs.

(** ** The ticker *)

Module TimeTickerProofs.

Import TimeTicker.

Lemma FD_ISSET_FD_SET (fd : Z) : 0 <= fd -> FD_ISSET fd (FD_SET fd FD_ZERO) = true.
Proof.
  intros Hfd. unfold FD_ISSET, FD_SET, FD_ZERO.
  rewrite Z.lor_0_l, Z.shiftl_spec by exact Hfd.
  replace (fd - fd) with 0 by lia. reflexivity.
Qed.

Lemma FD_ISSET_FD_ZERO (fd : Z) : FD_ISSET fd FD_ZERO = false.
Proof. unfold FD_ISSET, FD_ZERO. apply Z.testbit_0_l. Qed.

(** *** The other thread's byte *)

Lemma arrival_pipe (PIPE_CAPACITY : nat) (ev : wait_event) (k : kernel) :
  pipe_rd (arrival PIPE_CAPACITY ev k) = pipe_rd k /\
  pipe_wr (arrival PIPE_CAPACITY ev k) = pipe_wr k /\
  exists extra, pipe_buf (arrival PIPE_CAPACITY ev k) = pipe_buf k ++ extra.
Proof.
  unfold arrival, write. rewrite Z.eqb_refl.
  destruct ev as [e | | a];
    try (repeat split; exists []; rewrite app_nil_r; reflexivity).
  destruct (_ <=? PIPE_CAPACITY)%nat; cbn [pipe_rd pipe_wr pipe_buf].
  - repeat split. exists marker. reflexivity.
  - repeat split. exists []. rewrite app_nil_r. reflexivity.
Qed.

Lemma arrival_owns (PIPE_CAPACITY : nat) (t : ticker) (ev : wait_event) (k : kernel) :
  owns t k -> owns t (arrival PIPE_CAPACITY ev k).
Proof.
  intros (Hrd & Hfst & Hsnd).
  destruct (arrival_pipe PIPE_CAPACITY ev k) as (Hr & Hw & _).
  unfold owns. rewrite Hr, Hw. auto.
Qed.

Lemma arrival_readable (PIPE_CAPACITY : nat) (ev : wait_event) (k : kernel) :
  readable k = true -> readable (arrival PIPE_CAPACITY ev k) = true.
Proof.
  destruct (arrival_pipe PIPE_CAPACITY ev k) as (_ & _ & extra & Hbuf).
  unfold readable. rewrite Hbuf. destruct (pipe_buf k); [discriminate | reflexivity].
Qed.


(** *** [select] and [tick()] on the ticker's own pipe *)

Lemma select_of_tick (PIPE_CAPACITY : nat) (t : ticker) (ev : wait_event) (k : kernel) :
  owns t k ->
  select PIPE_CAPACITY (fst (_pipefds t) + 1) (FD_SET (fst (_pipefds t)) FD_ZERO)
         (_timeout t) ev k =
    if failed t ev
    then (-1, FD_SET (fst (_pipefds t)) FD_ZERO, arrival PIPE_CAPACITY ev k)
    else if readable_before_timeout PIPE_CAPACITY t ev k
         then (1, FD_SET (pipe_rd k) FD_ZERO, arrival PIPE_CAPACITY ev k)
         else (0, FD_ZERO, arrival PIPE_CAPACITY ev k).
Proof.
  intros (Hrd & Hfst & _). unfold select, failed, readable_before_timeout.
  rewrite Hfst. rewrite FD_ISSET_FD_SET by exact Hrd.
  replace (pipe_rd k <? pipe_rd k + 1) with true by (symmetry; apply Z.ltb_lt; lia).
  destruct (rejected (_timeout t)); [reflexivity |].
  destruct ev; reflexivity.
Qed.

Lemma tick_spec (PIPE_CAPACITY : nat) (t : ticker) (ev : wait_event) (k : kernel) :
  owns t k ->
  exists fds,
    tick PIPE_CAPACITY t ev k =
      (if failed t ev then Throws (runtime_error "TimeTicker select error.")
       else Normal (readable_before_timeout PIPE_CAPACITY t ev k),
       Ticker (_timeout t) fds (_pipefds t),
       arrival PIPE_CAPACITY ev k).
Proof.
  intros Hown. pose proof Hown as (Hrd & Hfst & _).
  unfold tick. rewrite (select_of_tick PIPE_CAPACITY t ev k Hown).
  destruct (failed t ev).
  - eexists. reflexivity.
  - destruct (readable_before_timeout PIPE_CAPACITY t ev k); cbn -[FD_SET FD_ISSET];
      rewrite ?Hfst, ?FD_ISSET_FD_SET, ?FD_ISSET_FD_ZERO by exact Hrd;
      eexists; reflexivity.
Qed.

(** C6: on its own pipe, [tick()] throws [runtime_error] when the
    readiness wait itself fails; otherwise it returns [true] when the read
    end is readable before the configured timeout has elapsed, and [false]
    when the timeout elapses first. *)
Theorem tick_outcome (PIPE_CAPACITY : nat) (t : ticker) (ev : wait_event) (k : kernel) :
  owns t k ->
  let r := fst (fst (tick PIPE_CAPACITY t ev k)) in
  (failed t ev = true -> r = Throws (runtime_error "TimeTicker select error.")) /\
  (failed t ev = false ->
   readable_before_timeout PIPE_CAPACITY t ev k = true -> r = Normal true) /\
  (failed t ev = false ->
   readable_before_timeout PIPE_CAPACITY t ev k = false -> r = Normal false).
Proof.
  intros Hown. destruct (tick_spec PIPE_CAPACITY t ev k Hown) as (fds & Heq).
  rewrite Heq. cbn [fst].
  split; [| split].
  - intros Hf. rewrite Hf. reflexivity.
  - intros Hf Hr. rewrite Hf, Hr. reflexivity.
  - intros Hf Hr. rewrite Hf, Hr. reflexivity.
Qed.

(** [tick()] takes nothing out of the pipe: the bytes that were buffered
    before the call are still there, in place, after it. *)
Lemma tick_keeps_bytes (PIPE_CAPACITY : nat) (t : ticker) (ev : wait_event) (k : kernel) :
  owns t k ->
  exists extra, pipe_buf (snd (tick PIPE_CAPACITY t ev k)) = pipe_buf k ++ extra.
Proof.
  intros Hown. destruct (tick_spec PIPE_CAPACITY t ev k Hown) as (fds & Heq).
  rewrite Heq. cbn [snd]. apply arrival_pipe.
Qed.

Lemma tick_readable (PIPE_CAPACITY : nat) (t : ticker) (ev : wait_event) (k : kernel) :
  owns t k -> readable k = true -> failed t ev = false ->
  exists fds,
    tick PIPE_CAPACITY t ev k =
      (Normal true, Ticker (_timeout t) fds (_pipefds t), arrival PIPE_CAPACITY ev k).
Proof.
  intros Hown Hr Hev. destruct (tick_spec PIPE_CAPACITY t ev k Hown) as (fds & Heq).
  exists fds. rewrite Heq, Hev. unfold readable_before_timeout. rewrite Hr. reflexivity.
Qed.

Lemma cancel_makes_readable (PIPE_CAPACITY : nat) (t : ticker) (k k' : kernel) :
  owns t k -> cancel PIPE_CAPACITY t k = Some k' ->
  readable k' = true /\ owns t k' /\ pipe_buf k' = pipe_buf k ++ marker.
Proof.
  intros (Hrd & Hfst & Hsnd). unfold cancel, write. rewrite Hsnd, Z.eqb_refl.
  destruct (_ <=? PIPE_CAPACITY)%nat; [| discriminate].
  intros [= <-]. unfold readable, owns; simpl.
  split; [destruct (pipe_buf k); reflexivity | auto].
Qed.

(** A run of calls on a pipe that holds a marker: every [tick()] finds
    it. *)
Lemma run_on_readable (PIPE_CAPACITY : nat) (to : Timeout) (cs : list ticker_call) :
  forall (t : ticker) (k : kernel),
    _timeout t = to -> owns t k -> readable k = true ->
    exists t' k' extra,
      calls PIPE_CAPACITY t cs k =
        (map (fun c => if tick_fails t c
                       then Throws (runtime_error "TimeTicker select error.")
                       else Normal true) (filter is_tick cs), t', k') /\
      _timeout t' = to /\ _pipefds t' = _pipefds t /\
      pipe_buf k' = pipe_buf k ++ extra.
Proof.
  induction cs as [| c cs IH]; intros t k Hto Hown Hr.
  - exists t, k, []. rewrite app_nil_r. repeat split. exact Hto.
  - destruct c as [ev |]; cbn [calls].
    + rewrite filter_cons_True by exact I. cbn [map tick_fails].
      destruct (tick_spec PIPE_CAPACITY t ev k Hown) as (fds & Heq). rewrite Heq.
      set (t1 := Ticker (_timeout t) fds (_pipefds t)).
      destruct (IH t1 (arrival PIPE_CAPACITY ev k)) as (t' & k' & extra & Hrun & Hto' & Hfds & Hbuf).
      * exact Hto.
      * apply arrival_owns. exact Hown.
      * apply arrival_readable. exact Hr.
      * destruct (arrival_pipe PIPE_CAPACITY ev k) as (_ & _ & extra0 & Hbuf0).
        exists t', k', (extra0 ++ extra). rewrite Hrun.
        split; [| split; [exact Hto' | split; [exact Hfds |]]].
        -- unfold readable_before_timeout. rewrite Hr. cbn [orb].
           reflexivity.
        -- rewrite Hbuf, Hbuf0, app_assoc. reflexivity.
    + rewrite filter_cons_False by (simpl; tauto).
      destruct (cancel PIPE_CAPACITY t k) as [k1 |] eqn:Hc1.
      * destruct (cancel_makes_readable PIPE_CAPACITY t k k1 Hown Hc1)
          as (Hr1 & Hown1 & Hbuf1).
        destruct (IH t k1 Hto Hown1 Hr1) as (t' & k' & extra & Hrun & Hto' & Hfds & Hbuf).
        exists t', k', (marker ++ extra). rewrite Hrun, Hbuf, Hbuf1, app_assoc.
        repeat split; assumption.
      * destruct (IH t k Hto Hown Hr) as (t' & k' & extra & Hrun & Hto' & Hfds & Hbuf).
        exists t', k', extra. rewrite Hrun. repeat split; assumption.
Qed.

(** C10, as amended: [tick()] never reads the marker.  Once a [cancel()]
    on the ticker's pipe has returned, then in any further run of
    [tick()] and [cancel()] calls every [tick()] returns [true], whatever
    happens during its wait, unless its wait call itself fails, as it does
    every time for a timeout [select] rejects: that [tick()] throws.  What
    the pipe held after that [cancel()] is still in it, in place, at the
    end. *)
Theorem ticks_after_cancel (PIPE_CAPACITY : nat) (t : ticker) (k k' : kernel)
    (cs : list ticker_call) :
  owns t k ->
  cancel PIPE_CAPACITY t k = Some k' ->
  exists t' k'' extra,
    calls PIPE_CAPACITY t cs k' =
      (map (fun c => if tick_fails t c
                     then Throws (runtime_error "TimeTicker select error.")
                     else Normal true) (filter is_tick cs), t', k'') /\
    _timeout t' = _timeout t /\ _pipefds t' = _pipefds t /\
    pipe_buf k'' = pipe_buf k' ++ extra.
Proof.
  intros Hown Hc.
  destruct (cancel_makes_readable PIPE_CAPACITY t k k' Hown Hc) as (Hr & Hown' & _).
  exact (run_on_readable PIPE_CAPACITY (_timeout t) cs t k' eq_refl Hown' Hr).
Qed.

(** C10, as stated, fails: [TimeTicker(0, -1)] is constructed without
    complaint, its [cancel()] returns with the marker in the pipe, and the
    [tick()] after it throws instead of returning [true], as [select]
    rejects the timeout; and on a ticker with a 50 ms timeout a [tick()]
    after [cancel()] throws when [select] is interrupted ([EINTR], 4). *)
Lemma tick_after_cancel_throws :
  TimeTicker 0 (-1) (PipeOpens 3 4) =
    Normal (Ticker (mkTimeout 0 (-1)) FD_ZERO (3, 4), Kernel 3 4 []) /\
  cancel 16%nat (Ticker (mkTimeout 0 (-1)) FD_ZERO (3, 4)) (Kernel 3 4 []) =
    Some (Kernel 3 4 marker) /\
  fst (fst (tick 16%nat (Ticker (mkTimeout 0 (-1)) FD_ZERO (3, 4)) Quiet (Kernel 3 4 marker)))
    = Throws (runtime_error "TimeTicker select error.") /\
  fst (fst (tick 16%nat (Ticker (mkTimeout 0 (-1)) FD_ZERO (3, 4)) Quiet (Kernel 3 4 marker)))
    <> Normal true /\
  fst (fst (tick 16%nat (Ticker (mkTimeout 0 50000) FD_ZERO (3, 4)) (Fails 4)
              (Kernel 3 4 marker)))
    <> Normal true.
Proof. repeat split; try discriminate; vm_compute; reflexivity. Qed.

(** Witnesses. *)

Lemma tick_outcome_witness :
  let t := Ticker (mkTimeout 0 50000) FD_ZERO (3, 4) in
  let k := Kernel 3 4 [] in
  let ev := Cancelled 20000 in
  let r := fst (fst (tick 16%nat t ev k)) in
  (failed t ev = true -> r = Throws (runtime_error "TimeTicker select error.")) /\
  (failed t ev = false -> readable_before_timeout 16%nat t ev k = true -> r = Normal true) /\
  (failed t ev = false -> readable_before_timeout 16%nat t ev k = false -> r = Normal false).
Proof.
  apply (tick_outcome 16%nat (Ticker (mkTimeout 0 50000) FD_ZERO (3, 4)) (Cancelled 20000)
           (Kernel 3 4 [])).
  unfold owns. simpl. lia.
Defined.

Lemma ticks_after_cancel_witness :
  exists t' k'' extra,
    calls 16%nat (Ticker (mkTimeout 0 50000) FD_ZERO (3, 4))
          [CTick Quiet; CTick (Cancelled 7); CTick (Fails 4); CCancel; CTick Quiet]
          (Kernel 3 4 marker) =
      ([Normal true; Normal true; Throws (runtime_error "TimeTicker select error.");
        Normal true], t', k'') /\
    _timeout t' = mkTimeout 0 50000 /\ _pipefds t' = (3, 4) /\
    pipe_buf k'' = marker ++ extra.
Proof.
  apply (ticks_after_cancel 16%nat (Ticker (mkTimeout 0 50000) FD_ZERO (3, 4))
           (Kernel 3 4 []) (Kernel 3 4 marker)
           [CTick Quiet; CTick (Cancelled 7); CTick (Fails 4); CCancel; CTick Quiet]).
  - unfold owns. simpl. lia.
  - reflexivity.
Defined.

End TimeTickerProofs.

(** ** The socket *)

Module SocketProofs.

Import Socket.

(** *** Construction and destruction *)

Lemma releases_delete (p a : positive) (w : world) :
  releases p (delete_ a w) = (releases p w + (if decide (a = p) then 1 else 0))%nat.
Proof.
  unfold releases, delete_; simpl.
  rewrite filter_app, length_app, filter_cons, filter_nil.
  destruct (decide (a = p)); reflexivity.
Qed.

Lemma constructed (open_init : bool) (proto : Protocol) (remote : Address) (fd : Z)
    (w : world) (s : socket) (w1 : world) :
  Socket open_init proto remote fd w = (Normal s, w1) ->
  _protocol s <> _remote_address s /\
  heap w1 !! _protocol s = Some (OProtocol proto) /\
  heap w1 !! _remote_address s = Some (OAddress remote) /\
  _native_handle s = fd /\
  _non_blocking s = true /\
  _open s = open_init /\
  deleted w1 = deleted w /\
  syscalls w1 =
    syscalls w ++ [sys_socket (family proto) (type proto) (protocol proto);
                   sys_non_blocking fd true].
Proof.
  unfold Socket, new, set_non_blocking, sys; simpl.
  destruct (fd =? -1); [discriminate |]. intros [= <- <-]; simpl.
  set (p := fresh (dom (heap w))).
  set (h1 := <[p := OProtocol proto]> (heap w)).
  assert (Hne : p <> fresh (dom h1)).
  { intros Heq. apply (is_fresh (dom h1)). rewrite <- Heq.
    unfold h1. rewrite dom_insert_L. set_solver. }
  repeat split.
  - exact Hne.
  - rewrite lookup_insert_ne by (intros Heq; apply Hne; symmetry; exact Heq).
    unfold h1. apply lookup_insert_eq.
  - apply lookup_insert_eq.
  - rewrite <- app_assoc. reflexivity.
Qed.

(** The destructor releases the remote address once and the protocol not
    at all: the protocol object is still in the store afterwards. *)
Lemma destroy_releases_address_only (open_init : bool) (proto : Protocol)
    (remote : Address) (fd : Z) (w : world) (s : socket) (w1 : world) :
  Socket open_init proto remote fd w = (Normal s, w1) ->
  releases (_remote_address s) (destroy s w1) = S (releases (_remote_address s) w1) /\
  releases (_protocol s) (destroy s w1) = releases (_protocol s) w1 /\
  heap (destroy s w1) !! _remote_address s = None /\
  heap (destroy s w1) !! _protocol s = Some (OProtocol proto).
Proof.
  intros Hc. destruct (constructed _ _ _ _ _ _ _ Hc) as (Hne & Hp & _).
  unfold destroy. rewrite !releases_delete.
  destruct (decide (_remote_address s = _remote_address s)) as [_ | Hn];
    [| contradiction Hn; reflexivity].
  destruct (decide (_remote_address s = _protocol s)) as [Heq | _];
    [contradiction Hne; symmetry; exact Heq |].
  repeat split.
  - lia.
  - lia.
  - simpl. apply lookup_delete_eq.
  - simpl. rewrite lookup_delete_ne by (intros Heq; apply Hne; symmetry; exact Heq).
    exact Hp.
Qed.

(** C3 (the code at the failing input): a socket over IPv4 TCP
    ([AF_INET = 2], [SOCK_STREAM = 1]) to 127.0.0.1:8080, built in an empty
    store on descriptor 3 and then destroyed.  The remote address has been
    released once; the protocol has been released zero times and is still
    allocated. *)
Theorem destructor_releases_only_the_address :
  let proto := mkProtocol 2 1 0 in
  let remote := mkAddress "127.0.0.1" 8080 in
  let s := mkSocket 3 1 2 true true in
  exists w1,
    Socket true proto remote 3 (World ∅ [] [] []) = (Normal s, w1) /\
    releases (_remote_address s) (destroy s w1) = 1%nat /\
    releases (_protocol s) (destroy s w1) = 0%nat /\
    heap (destroy s w1) !! _protocol s = Some (OProtocol proto).
Proof.
  cbv zeta. eexists. split; [vm_compute; reflexivity |].
  repeat split; vm_compute; reflexivity.
Qed.

(** *** [close()] *)

Lemma close_closed (s : socket) (res : Z) (err : string) (w : world) :
  _open s = false -> close s res err w = (Normal tt, s, w).
Proof. intros Ho. unfold close. rewrite Ho. reflexivity. Qed.

Lemma close_clears_open (s : socket) (res : Z) (err : string) (w : world) :
  (_open s = false \/ _native_handle s < 1) \/
  _open (snd (fst (close s res err w))) = false.
Proof.
  unfold close. destruct (_open s) eqn:Ho; [| left; left; reflexivity].
  destruct (Z.ltb_spec (_native_handle s) 1); [left; right; assumption |].
  right. simpl. destruct (res =? 0); reflexivity.
Qed.

Lemma closes_closed (s : socket) (os : list (Z * string)) (w : world) :
  _open s = false \/ _native_handle s < 1 ->
  closes s os w = (replicate (length os) (Normal tt), s, w).
Proof.
  intros Hs. induction os as [| [res err] os IH]; [reflexivity |].
  cbn [closes length replicate].
  assert (Hc : close s res err w = (Normal tt, s, w)).
  { unfold close. destruct Hs as [-> | Hlt]; [reflexivity |].
    apply Z.ltb_lt in Hlt. rewrite Hlt, orb_true_r. reflexivity. }
  rewrite Hc, IH. reflexivity.
Qed.

(** Whatever the first call did, a second [close()] does nothing. *)
Lemma close_after_close (s : socket) (res res' : Z) (err err' : string) (w : world) :
  let '(_, s', w') := close s res err w in
  close s' res' err' w' = (Normal tt, s', w').
Proof.
  unfold close at 1.
  destruct (negb (_open s) || (_native_handle s <? 1)) eqn:Hg.
  - unfold close. rewrite Hg. reflexivity.
  - destruct (negb (res =? 0)); apply close_closed; reflexivity.
Qed.

(** C7: on an open socket with a valid handle, the first [close()] issues
    exactly one [::close]; a non-zero result of it is thrown as a
    [NetException] carrying the error text, a zero result returns
    normally.  Either way the open flag is then clear, and every later
    [close()] on that socket returns normally, issues no system call and
    changes neither the socket nor anything else. *)
Theorem close_idempotent (s : socket) (res : Z) (err : string) (w : world)
    (os : list (Z * string)) :
  _open s = true -> 1 <= _native_handle s ->
  exists s' w',
    close s res err w =
      (if res =? 0 then Normal tt else Throws (NetException err), s', w') /\
    _open s' = false /\
    syscalls w' = syscalls w ++ [sys_close (_native_handle s)] /\
    closes s' os w' = (replicate (length os) (Normal tt), s', w').
Proof.
  intros Ho Hh. unfold close. rewrite Ho.
  replace (_native_handle s <? 1) with false by (symmetry; apply Z.ltb_ge; lia).
  cbn [negb orb].
  eexists _, _. split; [destruct (res =? 0); reflexivity |].
  split; [reflexivity |]. split; [reflexivity |].
  apply closes_closed. left. reflexivity.
Qed.

(** *** [connect()] *)

Lemma htonl_INADDR_ANY : htonl INADDR_ANY = INADDR_ANY.
Proof. reflexivity. Qed.

Lemma string_empty_spec (s : string) : string_empty s = true <-> s = EmptyString.
Proof. destruct s; simpl; split; congruence. Qed.

Section connect.

Variable sock_address : string -> Z -> Z -> sockaddr_in.
Variable inet_addr : string -> Z.

Lemma connect_live (s : socket) (ret : Z) (w : world) (a : Address) (p : Protocol) :
  heap w !! _remote_address s = Some (OAddress a) ->
  heap w !! _protocol s = Some (OProtocol p) ->
  connect sock_address inet_addr s ret w =
    Some (ret,
          sys (sys_connect (_native_handle s)
                 (mkSockaddr (sin_family (sock_address (ip a) (port a) (family p)))
                    (sin_port (sock_address (ip a) (port a) (family p)))
                    (if string_empty (ip a) then INADDR_ANY else inet_addr (ip a))))
              w).
Proof.
  intros Ha Hp. unfold connect. rewrite Ha, Hp.
  destruct (string_empty (ip a)); reflexivity.
Qed.

(** C8: on a socket built from [proto] and [remote], [connect()] issues
    one [::connect] on the socket's descriptor, which the constructor has
    put in non-blocking mode, and returns that call's result unchanged.
    The address it passes has [INADDR_ANY] as its IP when the bound ip
    string is empty, whatever [inet_addr] would make of the empty string,
    and [inet_addr(ip)] otherwise; family and port are those that
    [Posix::sock_address] gave. *)
Theorem connect_wildcard (open_init : bool) (proto : Protocol) (remote : Address)
    (fd : Z) (w : world) (s : socket) (w1 : world) (ret : Z) :
  Socket open_init proto remote fd w = (Normal s, w1) ->
  exists addr,
    connect sock_address inet_addr s ret w1 = Some (ret, sys (sys_connect fd addr) w1) /\
    syscalls (sys (sys_connect fd addr) w1) = syscalls w1 ++ [sys_connect fd addr] /\
    last (syscalls w1) = Some (sys_non_blocking fd true) /\
    _non_blocking s = true /\
    sin_family addr = sin_family (sock_address (ip remote) (port remote) (family proto)) /\
    sin_port addr = sin_port (sock_address (ip remote) (port remote) (family proto)) /\
    (ip remote = EmptyString -> sin_addr addr = INADDR_ANY) /\
    (ip remote <> EmptyString -> sin_addr addr = inet_addr (ip remote)).
Proof.
  intros Hc.
  destruct (constructed _ _ _ _ _ _ _ Hc) as (_ & Hp & Ha & Hfd & Hnb & _ & _ & Hsys).
  rewrite (connect_live s ret w1 remote proto Ha Hp), Hfd.
  eexists. split; [reflexivity |]. split; [reflexivity |].
  split; [rewrite Hsys, last_app; reflexivity |].
  split; [exact Hnb |]. split; [reflexivity |]. split; [reflexivity |]. simpl.
  split.
  - intros ->. reflexivity.
  - intros Hne. destruct (string_empty (ip remote)) eqn:He; [| reflexivity].
    apply string_empty_spec in He. contradiction.
Qed.

End connect.

(** *** [recv], [send] and the task *)

(** C4: [recv] and [send] are stubs; the registration and dispatch they
    are declared for is missing.  On descriptor 3, with the bits
    [EXCEPT = 8], [REMOTE_CLOSE = 4], [READ = 1], [WRITE = 2] and an
    executor with no registration, [recv] leaves no READ registration for
    the descriptor and [send] no WRITE registration, and running the task
    on READ readiness leaves the callback log empty instead of one entry
    long. *)
Lemma recv_registers_nothing :
  let s := mkSocket 3 1 2 true true in
  let w := World ∅ [] [] [] in
  let e : registrations := [] in
  ~ (registered 3 1 (snd (fst (recv s 0 16 e tt w))) = true) /\
  ~ (registered 3 2 (snd (fst (send s 0 16 e tt w))) = true) /\
  ~ (length (callbacks (run_task 8 4 1 2 (mkTask s tt) 1 (snd (recv s 0 16 e tt w))))
     = 1%nat).
Proof. cbv zeta. repeat split; vm_compute; discriminate. Qed.

(** Witnesses. *)

Lemma close_idempotent_witness :
  exists s' w',
    close (mkSocket 3 1 2 true true) (-1) "Bad file descriptor" (World ∅ [] [] []) =
      (Throws (NetException "Bad file descriptor"), s', w') /\
    _open s' = false /\
    syscalls w' = [sys_close 3] /\
    closes s' [(0, EmptyString); (-1, "Bad file descriptor"); (0, EmptyString)] w' =
      (replicate 3 (Normal tt), s', w').
Proof.
  apply (close_idempotent (mkSocket 3 1 2 true true) (-1) "Bad file descriptor"
           (World ∅ [] [] [])
           [(0, EmptyString); (-1, "Bad file descriptor"); (0, EmptyString)]).
  - reflexivity.
  - simpl. lia.
Defined.

Lemma connect_wildcard_witness :
  let sock_address := fun (_ : string) (port family : Z) => mkSockaddr family port 0 in
  let inet_addr := fun _ : string => 4294967295 in
  let proto := mkProtocol 2 1 0 in
  let remote := mkAddress EmptyString 8080 in
  let s := mkSocket 3 1 2 true true in
  let w1 := snd (Socket true proto remote 3 (World ∅ [] [] [])) in
  exists addr,
    connect sock_address inet_addr s 0 w1 = Some (0, sys (sys_connect 3 addr) w1) /\
    syscalls (sys (sys_connect 3 addr) w1) = syscalls w1 ++ [sys_connect 3 addr] /\
    last (syscalls w1) = Some (sys_non_blocking 3 true) /\
    _non_blocking s = true /\
    sin_family addr = sin_family (sock_address (ip remote) (port remote) (family proto)) /\
    sin_port addr = sin_port (sock_address (ip remote) (port remote) (family proto)) /\
    (ip remote = EmptyString -> sin_addr addr = INADDR_ANY) /\
    (ip remote <> EmptyString -> sin_addr addr = inet_addr (ip remote)).
Proof.
  cbv zeta.
  apply (connect_wildcard (fun (_ : string) (port family : Z) => mkSockaddr family port 0)
           (fun _ : string => 4294967295) true (mkProtocol 2 1 0)
           (mkAddress EmptyString 8080) 3 (World ∅ [] [] [])).
  vm_compute. reflexivity.
Defined.

End SocketProofs.

(** ** The queue as a FIFO *)

Module ArrayBlockingQueueFifo.

Import ArrayBlockingQueue ArrayBlockingQueueProofs.

Section fifo.

Context {T : Type}.
Variable N : Z.
Variable dflt : T.
Hypothesis N_size_t : N < 2 ^ SIZE_WIDTH.

Implicit Types (q : queue T) (ele : T).

(** *** Indices modulo the capacity *)

Lemma mod_succ (x : Z) : 0 <= x < N -> (x + 1) mod N = if x + 1 =? N then 0 else x + 1.
Proof.
  intros Hx. destruct (Z.eqb_spec (x + 1) N) as [-> | Hne].
  - apply Z.mod_same. lia.
  - apply Z.mod_small. lia.
Qed.

Lemma mod_distinct (t i j : Z) :
  0 <= i < j -> j < N -> (t + i) mod N <> (t + j) mod N.
Proof.
  intros Hi Hj Heq.
  assert (H : (t + j - (t + i)) mod N = 0).
  { rewrite Zminus_mod, Heq, Z.sub_diag. apply Z.mod_0_l. lia. }
  replace (t + j - (t + i)) with (j - i) in H by lia.
  rewrite Z.mod_small in H by lia. lia.
Qed.

Lemma advance (x : Z) :
  0 <= x < N ->
  (if size_t (x + 1) =? N then 0 else size_t (x + 1)) = (x + 1) mod N.
Proof.
  intros Hx. rewrite size_t_small by (unfold SIZE_WIDTH in *; lia).
  symmetry. apply mod_succ. exact Hx.
Qed.

(** *** [insert] and [remove] on the contents *)

Lemma count_of_contents q : 0 <= _count q -> Z.of_nat (length (contents N dflt q)) = _count q.
Proof. intros Hc. unfold contents. rewrite length_map, length_seq. lia. Qed.

Lemma set_mutex_contents b q : contents N dflt (set_mutex b q) = contents N dflt q.
Proof. reflexivity. Qed.

Lemma set_mutex_well_formed b q : well_formed N q <-> well_formed N (set_mutex b q).
Proof. unfold well_formed, invariant; simpl. tauto. Qed.

Lemma insert_contents ele q :
  well_formed N q -> full N q = false ->
  well_formed N (state_of (insert N ele q)) /\
  contents N dflt (state_of (insert N ele q)) = contents N dflt q ++ [ele].
Proof.
  intros (Hinv & Hlen & Hput) Hfull.
  pose proof (insert_invariant N ele q Hinv Hfull) as Hinv'.
  destruct Hinv as (Hc & Hp & Ht).
  unfold full, cap in Hfull. apply Z.eqb_neq in Hfull.
  assert (Hcount : size_t (_count q + 1) = _count q + 1)
    by (apply size_t_small; unfold SIZE_WIDTH in *; lia).
  split.
  - split; [exact Hinv' |]. unfold insert; simpl; unfold cap.
    split; [rewrite length_insert; exact Hlen |].
    rewrite advance by exact Hp. rewrite Hcount, Hput.
    rewrite Z.add_mod_idemp_l by lia. f_equal. lia.
  - unfold contents, insert; simpl. rewrite Hcount.
    replace (Z.to_nat (_count q + 1)) with (S (Z.to_nat (_count q))) by lia.
    rewrite List.seq_S, map_app. simpl. f_equal.
    + apply List.map_ext_in. intros i Hi. apply List.in_seq in Hi.
      unfold slot; simpl. rewrite list_lookup_insert_ne; [reflexivity |].
      rewrite Hput. intros Heq. apply Z2Nat.inj in Heq.
      * symmetry in Heq. revert Heq. apply mod_distinct; lia.
      * apply Z.mod_pos_bound. lia.
      * apply Z.mod_pos_bound. lia.
    + unfold slot; simpl. rewrite Z2Nat.id by lia. rewrite <- Hput.
      rewrite list_lookup_insert_eq by lia. reflexivity.
Qed.

Lemma remove_contents q :
  well_formed N q -> empty q = false ->
  exists x q',
    remove N dflt q = Returns x q' /\
    well_formed N q' /\
    _mutex q' = _mutex q /\
    contents N dflt q = x :: contents N dflt q'.
Proof.
  intros (Hinv & Hlen & Hput) Hempty.
  pose proof (remove_invariant N dflt q Hinv Hempty) as Hinv'.
  destruct Hinv as (Hc & Hp & Ht).
  unfold empty in Hempty. apply Z.eqb_neq in Hempty.
  assert (Hcount : size_t (_count q - 1) = _count q - 1)
    by (apply size_t_small; unfold SIZE_WIDTH in *; lia).
  eexists _, _. split; [reflexivity |]. split; [| split; [reflexivity |]].
  - split; [exact Hinv' |]. simpl; unfold cap.
    split; [exact Hlen |].
    rewrite advance by exact Ht. rewrite Hcount, Hput.
    rewrite Z.add_mod_idemp_l by lia. f_equal. lia.
  - unfold contents; simpl. rewrite Hcount.
    replace (Z.to_nat (_count q)) with (S (Z.to_nat (_count q - 1))) by lia.
    simpl. f_equal.
    + unfold slot. simpl. rewrite Z.add_0_r, Z.mod_small by lia. reflexivity.
    + rewrite <- List.seq_shift, List.map_map.
      apply List.map_ext. intros i. unfold slot; cbn [_queue _take_idx]; unfold cap.
      rewrite advance by exact Ht.
      rewrite Z.add_mod_idemp_l, Nat2Z.inj_succ by lia. do 4 f_equal. lia.
Qed.

(** *** Properties kept by [insert], [remove] and the mutex flag are kept
    by every call *)

Section preserved.

Variable P : queue T -> Prop.
Hypothesis P_mutex : forall b q, P q <-> P (set_mutex b q).
Hypothesis P_insert : forall ele q, P q -> full N q = false -> P (state_of (insert N ele q)).
Hypothesis P_remove : forall q, P q -> empty q = false -> P (state_of (remove N dflt q)).

Lemma other_step_preserves q (o : other) : P q -> P (other_step N dflt q o).
Proof.
  intros Hq. pose proof (P_remove q Hq) as Hrem.
  destruct o as [e | e |]; cbn [other_step];
    rewrite ?try_push_cases, ?try_push_const_cases, ?try_pop_cases;
    destruct (_mutex q); cbn [state_of]; try exact Hq.
  1-2: destruct (full N q) eqn:Hfull; cbn [state_of];
       [ first [ exact Hq | apply P_mutex; exact Hq ]
       | apply P_insert; [exact Hq | exact Hfull] ].
  destruct (empty q) eqn:Hempty; cbn [state_of]; [exact Hq |].
  specialize (Hrem eq_refl).
  destruct (remove N dflt q); cbn [state_of] in *; exact Hrem.
Qed.

Lemma others_preserve (os : list other) q : P q -> P (others N dflt os q).
Proof.
  unfold others. revert q.
  induction os as [| o os IH]; intros q Hq; simpl; [exact Hq |].
  apply IH, other_step_preserves, Hq.
Qed.

Lemma woken_preserves q q1 (os : list other) :
  P q ->
  set_mutex false q1 = others N dflt os (set_mutex false (set_mutex true q)) ->
  P q1.
Proof.
  intros Hq Heq. apply (P_mutex false). rewrite Heq.
  apply others_preserve, P_mutex, P_mutex, Hq.
Qed.

Lemma push_preserves ele sleeps q : P q -> P (state_of (push N dflt ele sleeps q)).
Proof.
  intros Hq. rewrite push_unfold. destruct (_mutex q); [exact Hq |].
  pose proof (cv_wait_spec N dflt (not_full N) sleeps (set_mutex true q) eq_refl) as Hw.
  destruct (cv_wait _ _ _) as [[] q1 | q1]; cbn [state_of].
  - destruct Hw as (_ & Hp & os & _ & Heq).
    apply P_mutex, P_insert.
    + exact (woken_preserves q q1 os Hq Heq).
    + apply negb_true_iff. exact Hp.
  - destruct Hw as (os & _ & ->).
    apply others_preserve, P_mutex, P_mutex, Hq.
Qed.

Lemma pop_preserves sleeps q : P q -> P (state_of (pop N dflt sleeps q)).
Proof.
  intros Hq. rewrite pop_unfold. destruct (_mutex q); [exact Hq |].
  pose proof (cv_wait_spec N dflt not_empty sleeps (set_mutex true q) eq_refl) as Hw.
  destruct (cv_wait _ _ _) as [[] q1 | q1]; cbn [state_of].
  - destruct Hw as (_ & Hp & os & _ & Heq).
    pose proof (P_remove q1 (woken_preserves q q1 os Hq Heq)) as Hrem.
    apply negb_true_iff in Hp. specialize (Hrem Hp).
    destruct (remove N dflt q1) as [e q2 | q2]; cbn [state_of] in *;
      [apply P_mutex |]; exact Hrem.
  - destruct Hw as (os & _ & ->).
    apply others_preserve, P_mutex, P_mutex, Hq.
Qed.

Lemma wait_push_preserves ele d sleeps q :
  P q -> P (state_of (wait_push N dflt ele d sleeps q)).
Proof.
  intros Hq. rewrite wait_push_unfold. destruct (_mutex q); [exact Hq |].
  pose proof (cv_wait_for_spec N dflt (not_full N) d sleeps (set_mutex true q) eq_refl)
    as Hw.
  destruct (cv_wait_for _ _ _ _) as [b q1 | q1]; cbn [state_of].
  - destruct Hw as (_ & Hp & os & _ & Heq).
    pose proof (woken_preserves q q1 os Hq Heq) as Hq1.
    apply P_mutex. destruct b; [| exact Hq1].
    apply P_insert; [exact Hq1 |].
    apply negb_true_iff. symmetry. exact Hp.
  - destruct Hw as (_ & os & _ & ->).
    apply others_preserve, P_mutex, P_mutex, Hq.
Qed.

Lemma wait_pop_preserves ele d sleeps q :
  P q -> P (state_of (wait_pop N dflt ele d sleeps q)).
Proof.
  intros Hq. rewrite wait_pop_unfold. destruct (_mutex q); [exact Hq |].
  pose proof (cv_wait_for_spec N dflt not_empty d sleeps (set_mutex true q) eq_refl)
    as Hw.
  destruct (cv_wait_for _ _ _ _) as [b q1 | q1]; cbn [state_of].
  - destruct Hw as (_ & Hp & os & _ & Heq).
    pose proof (woken_preserves q q1 os Hq Heq) as Hq1.
    destruct b; [| apply P_mutex; exact Hq1].
    pose proof (P_remove q1 Hq1) as Hrem.
    symmetry in Hp. apply negb_true_iff in Hp. specialize (Hrem Hp).
    destruct (remove N dflt q1) as [e q2 | q2]; cbn [state_of] in *;
      [apply P_mutex |]; exact Hrem.
  - destruct Hw as (_ & os & _ & ->).
    apply others_preserve, P_mutex, P_mutex, Hq.
Qed.

Lemma step_preserves q (c : call) : P q -> P (step N dflt q c).
Proof.
  intros Hq.
  destruct c as [e sl | e sl | e | e | e d sl | e d sl | sl | e | e d sl]; cbn [step].
  - apply push_preserves, Hq.
  - apply push_preserves, Hq.
  - apply (other_step_preserves q (other_try_push e)), Hq.
  - apply (other_step_preserves q (other_try_push_const e)), Hq.
  - apply wait_push_preserves, Hq.
  - apply wait_push_preserves, Hq.
  - apply pop_preserves, Hq.
  - pose proof (P_remove q Hq) as Hrem.
    rewrite try_pop_cases. destruct (_mutex q); [exact Hq |].
    destruct (empty q); [exact Hq |]. specialize (Hrem eq_refl).
    destruct (remove N dflt q); exact Hrem.
  - apply wait_pop_preserves, Hq.
Qed.

Lemma run_preserves (cs : list call) q : P q -> P (run N dflt q cs).
Proof.
  unfold run. revert q.
  induction cs as [| c cs IH]; intros q Hq; simpl; [exact Hq |].
  apply IH, step_preserves, Hq.
Qed.

End preserved.

Lemma remove_well_formed q :
  well_formed N q -> empty q = false -> well_formed N (state_of (remove N dflt q)).
Proof.
  intros Hq He. destruct (remove_contents q Hq He) as (x & q' & Heq & Hwf & _).
  rewrite Heq. exact Hwf.
Qed.

Lemma constructed_well_formed : 0 < N -> well_formed N (ArrayBlockingQueue N dflt).
Proof.
  intros HN. split; [apply constructed_invariant; exact HN |].
  unfold ArrayBlockingQueue; simpl. split; [apply length_replicate |].
  symmetry. apply Z.mod_0_l. lia.
Qed.

(** X5: whatever calls have run on a queue since its construction, and
    whatever other threads did meanwhile, the array still has its [N]
    slots and [_put_idx] is [_count] places after [_take_idx], modulo
    [N]. *)
Theorem calls_keep_indices_apart (cs : list call) :
  0 < N ->
  let q := run N dflt (ArrayBlockingQueue N dflt) cs in
  length (_queue q) = Z.to_nat N /\
  _put_idx q = (_take_idx q + _count q) mod N /\
  (_put_idx q = _take_idx q <-> _count q = 0 \/ _count q = N).
Proof.
  intros HN q.
  assert (Hwf : well_formed N q).
  { apply (run_preserves (well_formed N)).
    - exact set_mutex_well_formed.
    - intros ele q0 Hq0 Hf. apply (insert_contents ele q0 Hq0 Hf).
    - exact remove_well_formed.
    - apply constructed_well_formed. exact HN. }
  destruct Hwf as ((Hc & Hp & Ht) & Hlen & Hput).
  split; [exact Hlen |]. split; [exact Hput |].
  split.
  - intros Heq. rewrite Heq in Hput.
    destruct (Z.eq_dec (_count q) 0) as [? | Hne0]; [left; assumption |].
    destruct (Z.eq_dec (_count q) N) as [? | HneN]; [right; assumption |].
    exfalso.
    assert (H0 : (_take_idx q + 0) mod N = _take_idx q)
      by (rewrite Z.add_0_r; apply Z.mod_small; lia).
    apply (mod_distinct (_take_idx q) 0 (_count q)); [lia | lia |].
    rewrite H0. exact Hput.
  - intros [H0 | HNc]; rewrite Hput.
    + rewrite H0, Z.add_0_r. apply Z.mod_small. lia.
    + rewrite HNc. rewrite <- Z.add_mod_idemp_r, Z.mod_same, Z.add_0_r by lia.
      apply Z.mod_small. lia.
Qed.

(** *** The observers *)

Lemma full_iff_length q :
  well_formed N q -> (full N q = true <-> Z.of_nat (length (contents N dflt q)) = N).
Proof.
  intros ((Hc & _) & _). rewrite count_of_contents by lia.
  unfold full, cap. apply Z.eqb_eq.
Qed.

Lemma empty_iff_nil q :
  well_formed N q -> (empty q = true <-> contents N dflt q = []).
Proof.
  intros ((Hc & _) & _). unfold empty. rewrite Z.eqb_eq. split.
  - intros H0. unfold contents. rewrite H0. reflexivity.
  - intros Hnil. rewrite <- (count_of_contents q) by lia. rewrite Hnil. reflexivity.
Qed.

(** *** The non-blocking calls on the contents *)

(** X2: with the mutex free, [try_push(const T&)] appends its element behind
    the waiting ones and returns [true] when fewer than [N] wait, and
    returns [false] leaving everything as it was when [N] wait;
    [try_pop] hands out the oldest waiting element and returns [true], or
    returns [false] with the queue and the caller's variable untouched
    when nothing waits.  Both leave the mutex free. *)
Theorem try_calls_on_contents ele q :
  well_formed N q -> _mutex q = false ->
  (exists q',
      try_push_const N ele q = Returns (negb (full N q)) q' /\
      well_formed N q' /\ _mutex q' = false /\
      contents N dflt q' =
        (if full N q then contents N dflt q else contents N dflt q ++ [ele]) /\
      (full N q = true -> q' = q)) /\
  match contents N dflt q with
  | [] => try_pop N dflt ele q = Returns (false, ele) q
  | x :: l =>
    exists q',
      try_pop N dflt ele q = Returns (true, x) q' /\
      well_formed N q' /\ _mutex q' = false /\
      contents N dflt q' = l
  end.
Proof.
  intros Hq Hm. split.
  - rewrite try_push_const_cases, Hm. destruct (full N q) eqn:Hf.
    + exists q. repeat split; try assumption; apply Hq.
    + destruct (insert_contents ele q Hq Hf) as (Hwf & Hcont).
      exists (state_of (insert N ele q)).
      repeat split; try assumption; try apply Hwf. discriminate.
  - rewrite try_pop_cases, Hm. destruct (empty q) eqn:He.
    + apply (empty_iff_nil q Hq) in He. rewrite He. reflexivity.
    + destruct (remove_contents q Hq He) as (x & q' & Hrem & Hwf & Hm' & Hcont).
      rewrite Hcont, Hrem. exists q'.
      split; [reflexivity |]. split; [exact Hwf |].
      split; [rewrite Hm'; exact Hm | reflexivity].
Qed.

(** *** The blocking calls, alone and with a partner *)

Lemma push_alone ele q :
  push N dflt ele [] q =
    if _mutex q then Blocks q
    else if full N q then Blocks q
    else Returns tt (state_of (insert N ele q)).
Proof.
  rewrite push_unfold. destruct (_mutex q) eqn:Hm; [reflexivity |].
  cbn [untimed map cv_wait]. rewrite not_full_mutex. unfold not_full.
  destruct (full N q); cbn [negb].
  - rewrite set_mutex_twice, (set_mutex_id q false Hm). reflexivity.
  - rewrite insert_set_mutex, set_mutex_twice.
    rewrite set_mutex_id; [reflexivity |]. simpl. exact Hm.
Qed.

Lemma pop_alone q :
  pop N dflt [] q =
    if _mutex q then Blocks q
    else if empty q then Blocks q
    else remove N dflt q.
Proof.
  rewrite pop_unfold. destruct (_mutex q) eqn:Hm; [reflexivity |].
  cbn [untimed map cv_wait]. rewrite not_empty_mutex. unfold not_empty.
  destruct (empty q); cbn [negb].
  - rewrite set_mutex_twice, (set_mutex_id q false Hm). reflexivity.
  - rewrite remove_set_mutex.
    destruct (remove N dflt q) as [e q2 | q2] eqn:Hrem;
      [| unfold remove in Hrem; discriminate Hrem].
    rewrite set_mutex_twice, set_mutex_id; [reflexivity |].
    unfold remove in Hrem. injection Hrem as _ <-. simpl. exact Hm.
Qed.

Lemma push_alone_room ele q :
  well_formed N q -> _mutex q = false -> full N q = false ->
  exists q',
    push N dflt ele [] q = Returns tt q' /\
    well_formed N q' /\ _mutex q' = false /\
    contents N dflt q' = contents N dflt q ++ [ele].
Proof.
  intros Hq Hm Hf. rewrite push_alone, Hm, Hf.
  destruct (insert_contents ele q Hq Hf) as (Hwf & Hcont).
  exists (state_of (insert N ele q)). repeat split; try assumption; apply Hwf.
Qed.

Lemma pop_alone_some q x l :
  well_formed N q -> _mutex q = false -> contents N dflt q = x :: l ->
  exists q',
    pop N dflt [] q = Returns x q' /\
    well_formed N q' /\ _mutex q' = false /\
    contents N dflt q' = l.
Proof.
  intros Hq Hm Hc. rewrite pop_alone, Hm.
  destruct (empty q) eqn:He.
  - apply (empty_iff_nil q Hq) in He. rewrite He in Hc. discriminate Hc.
  - destruct (remove_contents q Hq He) as (x' & q' & Hrem & Hwf & Hm' & Hcont).
    rewrite Hc in Hcont. injection Hcont as -> ->.
    rewrite Hrem. exists q'.
    split; [reflexivity |]. split; [exact Hwf |].
    split; [rewrite Hm'; exact Hm | reflexivity].
Qed.

(** X3: with no other thread at work and the mutex free, [push] returns
    exactly when fewer than [N] elements wait, and then has appended its
    element; on a full queue it never returns and the queue stays as it
    is.  [pop] returns the oldest waiting element, and never returns on an
    empty queue. *)
Theorem blocking_calls_alone ele q :
  well_formed N q -> _mutex q = false ->
  (if full N q then push N dflt ele [] q = Blocks q
   else exists q',
       push N dflt ele [] q = Returns tt q' /\
       well_formed N q' /\ _mutex q' = false /\
       contents N dflt q' = contents N dflt q ++ [ele]) /\
  match contents N dflt q with
  | [] => pop N dflt [] q = Blocks q
  | x :: l =>
    exists q',
      pop N dflt [] q = Returns x q' /\
      well_formed N q' /\ _mutex q' = false /\
      contents N dflt q' = l
  end.
Proof.
  intros Hq Hm. split.
  - destruct (full N q) eqn:Hf.
    + rewrite push_alone, Hm, Hf. reflexivity.
    + apply push_alone_room; assumption.
  - destruct (contents N dflt q) as [| x l] eqn:Hc.
    + apply (empty_iff_nil q Hq) in Hc. rewrite pop_alone, Hm, Hc. reflexivity.
    + apply pop_alone_some; assumption.
Qed.

(** *** First in, first out *)

Lemma push_all_contents (xs : list T) q :
  well_formed N q -> _mutex q = false ->
  Z.of_nat (length (contents N dflt q) + length xs) <= N ->
  exists q',
    push_all N dflt xs q = Returns tt q' /\
    well_formed N q' /\ _mutex q' = false /\
    contents N dflt q' = contents N dflt q ++ xs.
Proof.
  revert q. induction xs as [| x xs IH]; intros q Hq Hm Hlen.
  - exists q. rewrite app_nil_r.
    split; [reflexivity |]. split; [exact Hq |]. split; [exact Hm | reflexivity].
  - assert (Hf : full N q = false).
    { destruct (full N q) eqn:Hf; [| reflexivity].
      apply (full_iff_length q Hq) in Hf. simpl in Hlen. lia. }
    destruct (push_alone_room x q Hq Hm Hf) as (q1 & Hpush & Hq1 & Hm1 & Hc1).
    destruct (IH q1 Hq1 Hm1) as (q' & Hall & Hq' & Hm' & Hc').
    { rewrite Hc1, length_app. simpl in *. lia. }
    exists q'. cbn [push_all]. unfold bind at 1. rewrite Hpush.
    split; [exact Hall |]. split; [exact Hq' |]. split; [exact Hm' |].
    rewrite Hc', Hc1, <- app_assoc. reflexivity.
Qed.

Lemma pop_n_contents (n : nat) q :
  well_formed N q -> _mutex q = false ->
  (n <= length (contents N dflt q))%nat ->
  exists q',
    pop_n N dflt n q = Returns (take n (contents N dflt q)) q' /\
    well_formed N q' /\ _mutex q' = false /\
    contents N dflt q' = drop n (contents N dflt q).
Proof.
  revert q. induction n as [| n IH]; intros q Hq Hm Hlen.
  - exists q.
    split; [reflexivity |]. split; [exact Hq |]. split; [exact Hm | reflexivity].
  - destruct (contents N dflt q) as [| x l] eqn:Hc; [simpl in Hlen; lia |].
    destruct (pop_alone_some q x l Hq Hm Hc) as (q1 & Hpop & Hq1 & Hm1 & Hc1).
    destruct (IH q1 Hq1 Hm1) as (q' & Hpops & Hq' & Hm' & Hc').
    { rewrite Hc1. simpl in Hlen. lia. }
    exists q'. cbn [pop_n]. unfold bind at 1. rewrite Hpop.
    unfold bind at 1. rewrite Hpops. rewrite Hc1 in *.
    split; [reflexivity |]. split; [exact Hq' |]. split; [exact Hm' | exact Hc'].
Qed.

(** X1: one thread pushes the elements [xs], for which there is room, and
    then pops [n] times, no more than then wait: every call returns, the
    pops hand out, in order, the first [n] of the elements that waited
    before followed by [xs], and the rest still waits in that order. *)
Theorem first_in_first_out (xs : list T) (n : nat) q :
  well_formed N q -> _mutex q = false ->
  Z.of_nat (length (contents N dflt q) + length xs) <= N ->
  (n <= length (contents N dflt q) + length xs)%nat ->
  exists q',
    bind (push_all N dflt xs) (fun _ => pop_n N dflt n) q =
      Returns (take n (contents N dflt q ++ xs)) q' /\
    well_formed N q' /\ _mutex q' = false /\
    contents N dflt q' = drop n (contents N dflt q ++ xs).
Proof.
  intros Hq Hm Hroom Hn.
  destruct (push_all_contents xs q Hq Hm Hroom) as (q1 & Hpush & Hq1 & Hm1 & Hc1).
  destruct (pop_n_contents n q1 Hq1 Hm1) as (q' & Hpop & Hq' & Hm' & Hc').
  { rewrite Hc1, length_app. exact Hn. }
  exists q'. unfold bind. rewrite Hpush, Hpop, Hc', Hc1.
  split; [reflexivity |]. split; [exact Hq' |]. split; [exact Hm' | reflexivity].
Qed.

(** *** Handing over between threads *)


(** *** The mutex *)

(** X7: entered with the mutex free, every call but [try_push(T&&)] that
    returns has released the mutex; [try_push(T&&)] always returns, and
    returns holding the mutex exactly when it found the queue full (its
    result is then [false]). *)
Theorem mutex_after_return ele d (sl : list (list other))
    (tsl : list (list other * cv_status)) q :
  _mutex q = false ->
  match push N dflt ele sl q with Returns _ q' => _mutex q' = false | Blocks _ => True end /\
  match push_const N dflt ele sl q with
  | Returns _ q' => _mutex q' = false | Blocks _ => True end /\
  match pop N dflt sl q with Returns _ q' => _mutex q' = false | Blocks _ => True end /\
  match wait_push N dflt ele d tsl q with
  | Returns _ q' => _mutex q' = false | Blocks _ => True end /\
  match wait_push_const N dflt ele d tsl q with
  | Returns _ q' => _mutex q' = false | Blocks _ => True end /\
  match wait_pop N dflt ele d tsl q with
  | Returns _ q' => _mutex q' = false | Blocks _ => True end /\
  (exists b q', try_push_const N ele q = Returns b q' /\ _mutex q' = false) /\
  (exists r q', try_pop N dflt ele q = Returns r q' /\ _mutex q' = false) /\
  (exists b q',
      try_push N ele q = Returns b q' /\
      (_mutex q' = true <-> full N q = true) /\
      (_mutex q' = true -> b = false)).
Proof.
  intros Hm.
  change (push_const N dflt ele sl q) with (push N dflt ele sl q).
  change (wait_push_const N dflt ele d tsl q) with (wait_push N dflt ele d tsl q).
  rewrite push_unfold, pop_unfold, wait_push_unfold, wait_pop_unfold, Hm.
  rewrite try_push_cases, try_push_const_cases, try_pop_cases, Hm.
  assert (Hrem : forall q0, exists e q2, remove N dflt q0 = Returns e q2 /\
                                         _mutex q2 = _mutex q0).
  { intros q0. eexists _, _. split; reflexivity. }
  repeat split.
  - destruct (cv_wait _ _ _) as [[] q1 | q1]; [reflexivity | exact I].
  - destruct (cv_wait _ _ _) as [[] q1 | q1]; [reflexivity | exact I].
  - destruct (cv_wait _ _ _) as [[] q1 | q1]; [| exact I].
    destruct (Hrem q1) as (e & q2 & -> & _). reflexivity.
  - destruct (cv_wait_for _ _ _ _) as [b q1 | q1]; [reflexivity | exact I].
  - destruct (cv_wait_for _ _ _ _) as [b q1 | q1]; [reflexivity | exact I].
  - destruct (cv_wait_for _ _ _ _) as [[] q1 | q1]; [| reflexivity | exact I].
    destruct (Hrem q1) as (e & q2 & -> & _). reflexivity.
  - destruct (full N q); eexists _, _; split; try reflexivity; exact Hm.
  - destruct (empty q); [eexists _, _; split; [reflexivity | exact Hm] |].
    destruct (Hrem q) as (e & q2 & -> & Hm2).
    eexists _, _. split; [reflexivity |]. rewrite Hm2. exact Hm.
  - destruct (full N q); eexists _, _; (split; [reflexivity |]); simpl.
    + split; [tauto | reflexivity].
    + rewrite Hm. split; [split; discriminate | discriminate].
Qed.

Lemma step_held q (c : call) : _mutex q = true -> step N dflt q c = q.
Proof.
  intros Hm.
  destruct c as [e sl | e sl | e | e | e d sl | e d sl | sl | e | e d sl]; cbn [step];
    try change (push_const N dflt e sl q) with (push N dflt e sl q);
    try change (wait_push_const N dflt e d sl q) with (wait_push N dflt e d sl q);
    rewrite ?push_unfold, ?pop_unfold, ?wait_push_unfold, ?wait_pop_unfold,
            ?try_push_cases, ?try_push_const_cases, ?try_pop_cases, Hm;
    reflexivity.
Qed.

(** X8: while the mutex is held nothing moves: the three try-calls return
    [false] at once and change nothing, the blocking and the timed calls
    never return, and no run of calls changes the queue.  As nothing
    releases a mutex that [try_push(T&&)] has kept, the queue stays frozen
    from then on. *)
Theorem held_mutex_freezes_queue ele d (sl : list (list other))
    (tsl : list (list other * cv_status)) (cs : list call) q :
  _mutex q = true ->
  try_push N ele q = Returns false q /\
  try_push_const N ele q = Returns false q /\
  try_pop N dflt ele q = Returns (false, ele) q /\
  push N dflt ele sl q = Blocks q /\
  push_const N dflt ele sl q = Blocks q /\
  pop N dflt sl q = Blocks q /\
  wait_push N dflt ele d tsl q = Blocks q /\
  wait_push_const N dflt ele d tsl q = Blocks q /\
  wait_pop N dflt ele d tsl q = Blocks q /\
  run N dflt q cs = q.
Proof.
  intros Hm.
  change (push_const N dflt ele sl q) with (push N dflt ele sl q).
  change (wait_push_const N dflt ele d tsl q) with (wait_push N dflt ele d tsl q).
  rewrite push_unfold, pop_unfold, wait_push_unfold, wait_pop_unfold,
          try_push_cases, try_push_const_cases, try_pop_cases, Hm.
  repeat split.
  unfold run. induction cs as [| c cs IH]; [reflexivity |].
  cbn [foldl]. rewrite (step_held q c Hm). exact IH.
Qed.

End fifo.

(** Witnesses, on a queue of capacity 2. *)

Ltac concrete_well_formed :=
  unfold well_formed, invariant; simpl; repeat split; first [lia | reflexivity].

Lemma calls_keep_indices_apart_witness :
  let q := run 2 0 (ArrayBlockingQueue 2 0)
             [CPush 1 []; CTryPushConst 2; CPop []; CWaitPush 3 50 [];
              CPush 4 [[other_try_pop]]; CTryPush 5; CTryPop 0] in
  length (_queue q) = Z.to_nat 2 /\
  _put_idx q = (_take_idx q + _count q) mod 2 /\
  (_put_idx q = _take_idx q <-> _count q = 0 \/ _count q = 2).
Proof.
  apply (calls_keep_indices_apart 2 0); reflexivity.
Defined.

Lemma try_calls_on_contents_witness :
  let q := Queue [1; 2] false 0 1 1 in
  (exists q',
      try_push_const 2 3 q = Returns (negb (full 2 q)) q' /\
      well_formed 2 q' /\ _mutex q' = false /\
      contents 2 0 q' = (if full 2 q then contents 2 0 q else contents 2 0 q ++ [3]) /\
      (full 2 q = true -> q' = q)) /\
  match contents 2 0 q with
  | [] => try_pop 2 0 3 q = Returns (false, 3) q
  | x :: l =>
    exists q',
      try_pop 2 0 3 q = Returns (true, x) q' /\
      well_formed 2 q' /\ _mutex q' = false /\
      contents 2 0 q' = l
  end.
Proof.
  apply (try_calls_on_contents 2 0);
    [reflexivity | concrete_well_formed | reflexivity].
Defined.

Lemma blocking_calls_alone_witness :
  let q := Queue [1; 2] false 0 0 2 in
  (if full 2 q then push 2 0 3 [] q = Blocks q
   else exists q',
       push 2 0 3 [] q = Returns tt q' /\
       well_formed 2 q' /\ _mutex q' = false /\
       contents 2 0 q' = contents 2 0 q ++ [3]) /\
  match contents 2 0 q with
  | [] => pop 2 0 [] q = Blocks q
  | x :: l =>
    exists q',
      pop 2 0 [] q = Returns x q' /\
      well_formed 2 q' /\ _mutex q' = false /\
      contents 2 0 q' = l
  end.
Proof.
  apply (blocking_calls_alone 2 0);
    [reflexivity | concrete_well_formed | reflexivity].
Defined.

Lemma first_in_first_out_witness :
  let q := Queue [0; 7; 0] false 2 1 1 in
  exists q',
    bind (push_all 3 0 [8; 9]) (fun _ => pop_n 3 0 2) q =
      Returns (take 2 (contents 3 0 q ++ [8; 9])) q' /\
    well_formed 3 q' /\ _mutex q' = false /\
    contents 3 0 q' = drop 2 (contents 3 0 q ++ [8; 9]).
Proof.
  apply (first_in_first_out 3 0);
    [reflexivity | concrete_well_formed | reflexivity | simpl; lia | simpl; lia].
Defined.


Lemma mutex_after_return_witness :
  let q := Queue [1; 2] false 0 0 2 in
  let sl := [[other_try_pop]] in
  let tsl := [([other_try_pop], timeout)] in
  match push 2 0 3 sl q with Returns _ q' => _mutex q' = false | Blocks _ => True end /\
  match push_const 2 0 3 sl q with
  | Returns _ q' => _mutex q' = false | Blocks _ => True end /\
  match pop 2 0 sl q with Returns _ q' => _mutex q' = false | Blocks _ => True end /\
  match wait_push 2 0 3 50 tsl q with
  | Returns _ q' => _mutex q' = false | Blocks _ => True end /\
  match wait_push_const 2 0 3 50 tsl q with
  | Returns _ q' => _mutex q' = false | Blocks _ => True end /\
  match wait_pop 2 0 3 50 tsl q with
  | Returns _ q' => _mutex q' = false | Blocks _ => True end /\
  (exists b q', try_push_const 2 3 q = Returns b q' /\ _mutex q' = false) /\
  (exists r q', try_pop 2 0 3 q = Returns r q' /\ _mutex q' = false) /\
  (exists b q',
      try_push 2 3 q = Returns b q' /\
      (_mutex q' = true <-> full 2 q = true) /\
      (_mutex q' = true -> b = false)).
Proof.
  apply (mutex_after_return 2 0 3 50 [[other_try_pop]] [([other_try_pop], timeout)]
           (Queue [1; 2] false 0 0 2)).
  reflexivity.
Defined.

Lemma held_mutex_freezes_queue_witness :
  let q := state_of (try_push 2 3 (Queue [1; 2] false 0 0 2)) in
  let sl := [[other_try_pop]] in
  let tsl := [([other_try_pop], timeout)] in
  try_push 2 4 q = Returns false q /\
  try_push_const 2 4 q = Returns false q /\
  try_pop 2 0 4 q = Returns (false, 4) q /\
  push 2 0 4 sl q = Blocks q /\
  push_const 2 0 4 sl q = Blocks q /\
  pop 2 0 sl q = Blocks q /\
  wait_push 2 0 4 50 tsl q = Blocks q /\
  wait_push_const 2 0 4 50 tsl q = Blocks q /\
  wait_pop 2 0 4 50 tsl q = Blocks q /\
  run 2 0 q [CPop []; CTryPop 0; CWaitPop 0 50 []; CTryPushConst 5] = q.
Proof.
  apply (held_mutex_freezes_queue 2 0 4 50 [[other_try_pop]] [([other_try_pop], timeout)]
           [CPop []; CTryPop 0; CWaitPop 0 50 []; CTryPushConst 5]).
  reflexivity.
Defined.

End ArrayBlockingQueueFifo.

(** ** The ticker over whole runs *)

Module TimeTickerRuns.

Import TimeTicker TimeTickerProofs.

(** X9: on a ticker just constructed with a timeout, as long as nobody
    calls [cancel()], neither this thread nor another one during a wait,
    no [tick()] returns [true], however many are made: each returns
    [false], or throws when its wait call fails (every time, for a timeout
    [select] rejects), and the pipe stays empty. *)
Theorem ticks_without_cancel (PIPE_CAPACITY : nat) (seconds microSeconds rd wr : Z)
    (t : ticker) (k : kernel) (cs : list ticker_call) :
  TimeTicker seconds microSeconds (PipeOpens rd wr) = Normal (t, k) ->
  0 <= rd ->
  forallb (fun c => match c with
                    | CTick ev => negb (is_cancelled ev)
                    | CCancel => false
                    end) cs = true ->
  exists t',
    calls PIPE_CAPACITY t cs k =
      (map (fun c => if tick_fails t c
                     then Throws (runtime_error "TimeTicker select error.")
                     else Normal false) cs, t', k) /\
    _timeout t' = mkTimeout seconds microSeconds /\
    pipe_buf k = [].
Proof.
  intros Hc Hrd Hcs. unfold TimeTicker in Hc. simpl in Hc. injection Hc as <- <-.
  set (k := Kernel rd wr []) in *.
  set (to := mkTimeout seconds microSeconds).
  assert (Hgen : forall t, owns t k -> _timeout t = to ->
            exists t', calls PIPE_CAPACITY t cs k =
                         (map (fun c => if tick_fails t c
                                        then Throws (runtime_error "TimeTicker select error.")
                                        else Normal false) cs, t', k)
                       /\ _timeout t' = to).
  { induction cs as [| c cs IH]; intros t Hown Hto.
    - exists t. split; [reflexivity | exact Hto].
    - cbn [forallb] in Hcs. apply andb_true_iff in Hcs as [Hev Hcs].
      destruct c as [ev |]; [| discriminate Hev].
      apply negb_true_iff in Hev.
      cbn [calls map tick_fails].
      destruct (tick_spec PIPE_CAPACITY t ev k Hown) as (fds & Heq). rewrite Heq.
      assert (Harr : arrival PIPE_CAPACITY ev k = k)
        by (destruct ev; [reflexivity | reflexivity | discriminate Hev]).
      assert (Hmiss : readable_before_timeout PIPE_CAPACITY t ev k = false)
        by (destruct ev; [reflexivity | reflexivity | discriminate Hev]).
      rewrite Harr, Hmiss.
      destruct (IH Hcs (Ticker (_timeout t) fds (_pipefds t)) Hown Hto) as (t' & Hrun & Hto').
      exists t'. rewrite Hrun. split; [reflexivity | exact Hto']. }
  destruct (Hgen (Ticker to FD_ZERO (rd, wr))) as (t' & Heq & Hto).
  - unfold owns, k. simpl. auto.
  - reflexivity.
  - exists t'. split; [exact Heq |]. split; [exact Hto | reflexivity].
Qed.


(** X11: markers pile up in the pipe: [tick()] never takes one out, so a run of
    [cancel()] calls and quiet [tick()] calls on a pipe holding [m] markers
    leaves [m] plus the number of [cancel()] calls, capped at the pipe's
    capacity; once that is reached a [cancel()] never returns. *)
Theorem markers_pile_up (PIPE_CAPACITY : nat) (t : ticker) (k : kernel) (m : nat)
    (cs : list ticker_call) :
  owns t k ->
  pipe_buf k = replicate m Byte.x31 ->
  (m <= PIPE_CAPACITY)%nat ->
  forallb (fun c => match c with
                    | CTick Quiet | CCancel => true
                    | CTick _ => false
                    end) cs = true ->
  let n := (m + length (filter (fun c => negb (is_tick c)) cs))%nat in
  let '(_, t', k') := calls PIPE_CAPACITY t cs k in
  pipe_buf k' = replicate (Nat.min n PIPE_CAPACITY) Byte.x31 /\
  (PIPE_CAPACITY <= n -> cancel PIPE_CAPACITY t' k' = None)%nat.
Proof.
  revert t k m. induction cs as [| c cs IH]; intros t k m Hown Hbuf Hm Hcs.
  - cbn [calls filter length forallb]. rewrite Nat.add_0_r, Nat.min_l by lia.
    split; [exact Hbuf |]. intros Hfull.
    destruct Hown as (_ & _ & Hwr). unfold cancel, write.
    rewrite Hwr, Z.eqb_refl, Hbuf, length_replicate.
    destruct (Nat.leb_spec (m + length marker) PIPE_CAPACITY) as [Hle | _];
      [simpl in Hle; lia | reflexivity].
  - cbn [forallb] in Hcs. apply andb_true_iff in Hcs as [Hc Hcs].
    destruct c as [ev |].
    + destruct ev as [e | | a]; try discriminate Hc.
      cbn [calls]. rewrite filter_cons_False by (simpl; tauto).
      destruct (tick_spec PIPE_CAPACITY t Quiet k Hown) as (fds & Heq).
      rewrite Heq. cbn [arrival].
      set (t1 := Ticker (_timeout t) fds (_pipefds t)).
      assert (Hown1 : owns t1 k) by exact Hown.
      specialize (IH t1 k m Hown1 Hbuf Hm Hcs). cbv zeta in IH.
      destruct (calls PIPE_CAPACITY t1 cs k) as [[rs t'] k']. exact IH.
    + cbn [calls]. rewrite filter_cons_True by exact I. cbn [length].
      pose proof Hown as (Hrd & Hfst & Hwr).
      unfold cancel, write. rewrite Hwr, Z.eqb_refl, Hbuf, length_replicate.
      destruct (Nat.leb_spec (m + length marker) PIPE_CAPACITY) as [Hle | Hgt].
      * specialize (IH t (Kernel (pipe_rd k) (pipe_wr k) (replicate m Byte.x31 ++ marker))
                       (S m)).
        cbv zeta in IH. rewrite Nat.add_succ_r. rewrite Nat.add_succ_l in IH.
        apply IH.
        -- exact Hown.
        -- simpl. symmetry. apply replicate_S_end.
        -- simpl in Hle. lia.
        -- exact Hcs.
      * simpl in Hgt. assert (m = PIPE_CAPACITY) by lia. subst m.
        specialize (IH t k PIPE_CAPACITY Hown Hbuf Hm Hcs). cbv zeta in IH.
        destruct (calls PIPE_CAPACITY t cs k) as [[rs t'] k'].
        destruct IH as (IH1 & IH2).
        rewrite Nat.min_r in * by lia.
        split; [exact IH1 |]. intros _. apply IH2. lia.
Qed.

(** Witnesses. *)

Lemma ticks_without_cancel_witness :
  exists t',
    calls 16%nat (Ticker (mkTimeout 0 50000) FD_ZERO (3, 4))
          [CTick Quiet; CTick (Fails 4); CTick Quiet] (Kernel 3 4 []) =
      ([Normal false; Throws (runtime_error "TimeTicker select error."); Normal false],
       t', Kernel 3 4 []) /\
    _timeout t' = mkTimeout 0 50000 /\
    pipe_buf (Kernel 3 4 []) = [].
Proof.
  apply (ticks_without_cancel 16%nat 0 50000 3 4
           (Ticker (mkTimeout 0 50000) FD_ZERO (3, 4)) (Kernel 3 4 [])
           [CTick Quiet; CTick (Fails 4); CTick Quiet]).
  - reflexivity.
  - lia.
  - reflexivity.
Defined.


Lemma markers_pile_up_witness :
  let t := Ticker (mkTimeout 0 50000) FD_ZERO (3, 4) in
  let k := Kernel 3 4 [Byte.x31] in
  let cs := [CCancel; CTick Quiet; CCancel; CCancel] in
  let n := (1 + length (filter (fun c => negb (is_tick c)) cs))%nat in
  let '(_, t', k') := calls 3%nat t cs k in
  pipe_buf k' = replicate (Nat.min n 3) Byte.x31 /\
  (3 <= n -> cancel 3%nat t' k' = None)%nat.
Proof.
  apply (markers_pile_up 3%nat (Ticker (mkTimeout 0 50000) FD_ZERO (3, 4))
           (Kernel 3 4 [Byte.x31]) 1%nat [CCancel; CTick Quiet; CCancel; CCancel]).
  - unfold owns. simpl. lia.
  - reflexivity.
  - lia.
  - reflexivity.
Defined.

End TimeTickerRuns.

(** ** The socket over its lifetime *)

Module SocketLifetime.

Import Socket SocketProofs.

(** *** Construction *)


(** *** After [close()] *)

(** X13: [close()] keeps the descriptor number, and neither [connect()] nor
    [shutdown()] looks at the open flag: on a socket that has been closed,
    [shutdown()] with a valid kind and [connect()] still reach the kernel
    with the old descriptor. *)
Theorem closed_socket_still_reaches_kernel
    (sock_address : string -> Z -> Z -> sockaddr_in) (inet_addr : string -> Z)
    (proto : Protocol) (remote : Address) (fd : Z) (w w1 : world) (s : socket)
    (err : string) (how ret : Z) :
  Socket true proto remote fd w = (Normal s, w1) ->
  1 <= fd -> SHUT_RD <= how <= SHUT_RDWR ->
  exists s' w2 addr,
    close s 0 err w1 = (Normal tt, s', w2) /\
    _open s' = false /\ _native_handle s' = fd /\
    shutdown s' how w2 = sys (sys_shutdown fd how) w2 /\
    connect sock_address inet_addr s' ret w2 = Some (ret, sys (sys_connect fd addr) w2).
Proof.
  intros Hc Hfd Hhow.
  destruct (constructed _ _ _ _ _ _ _ Hc) as (_ & Hp & Ha & Hh & _ & Ho & _).
  unfold close. rewrite Ho, Hh.
  replace (fd <? 1) with false by (symmetry; apply Z.ltb_ge; lia).
  cbn [negb orb Z.eqb].
  eexists _, _, _. split; [reflexivity |]. split; [reflexivity |].
  split; [reflexivity |]. split.
  - unfold shutdown. cbn [_native_handle].
    replace (fd <? 1) with false by (symmetry; apply Z.ltb_ge; lia).
    replace (how <? SHUT_RD) with false by (symmetry; apply Z.ltb_ge; lia).
    replace (SHUT_RDWR <? how) with false by (symmetry; apply Z.ltb_ge; lia).
    reflexivity.
  - rewrite (connect_live sock_address inet_addr _ ret _ remote proto);
      [reflexivity | exact Ha | exact Hp].
Qed.

(** *** Descriptors below one *)

(** X14: both [close()] and [shutdown()] treat a descriptor below [1] as no
    socket at all.  A socket whose [::socket] call returned descriptor [0]
    can therefore never be closed or shut down through this class: every
    [close()] and [shutdown()] returns without a system call, and the
    socket stays open. *)
Theorem descriptor_zero_is_never_closed (open_init : bool) (proto : Protocol)
    (remote : Address) (w w1 : world) (s : socket) (os : list (Z * string)) (how : Z) :
  Socket open_init proto remote 0 w = (Normal s, w1) ->
  closes s os w1 = (replicate (length os) (Normal tt), s, w1) /\
  shutdown s how w1 = w1 /\
  _open s = open_init.
Proof.
  intros Hc.
  destruct (constructed _ _ _ _ _ _ _ Hc) as (_ & _ & _ & Hh & _ & Ho & _).
  split; [apply closes_closed; right; lia |].
  split; [| exact Ho].
  unfold shutdown. rewrite Hh. reflexivity.
Qed.

(** *** The destructor and the descriptor *)

(** X16: the destructor makes no system call: a socket that is constructed and
    destroyed without a [close()] in between leaves its descriptor open. *)
Theorem destructor_leaves_descriptor_open (open_init : bool) (proto : Protocol)
    (remote : Address) (fd : Z) (w w1 : world) (s : socket) :
  Socket open_init proto remote fd w = (Normal s, w1) ->
  sys_close fd ∉ syscalls w ->
  syscalls (destroy s w1) = syscalls w1 /\
  sys_close fd ∉ syscalls (destroy s w1).
Proof.
  intros Hc Hnot.
  destruct (constructed _ _ _ _ _ _ _ Hc) as (_ & _ & _ & _ & _ & _ & _ & Hs).
  split; [reflexivity |].
  unfold destroy, delete_; simpl. rewrite Hs.
  rewrite elem_of_app. intros [Hin | Hin]; [exact (Hnot Hin) |].
  apply elem_of_cons in Hin as [Heq | Hin]; [discriminate Heq |].
  apply elem_of_cons in Hin as [Heq | Hin]; [discriminate Heq |].
  apply elem_of_nil in Hin. exact Hin.
Qed.

(** *** Equality *)


(** Witnesses: an IPv4 TCP socket to 127.0.0.1:8080 built in an empty
    store. *)

Lemma closed_socket_still_reaches_kernel_witness :
  let sock_address := fun (_ : string) (port family : Z) => mkSockaddr family port 0 in
  let inet_addr := fun _ : string => 16777343 in
  let w1 := snd (Socket true (mkProtocol 2 1 0) (mkAddress "127.0.0.1" 8080) 3
                   (World ∅ [] [] [])) in
  exists s' w2 addr,
    close (mkSocket 3 1 2 true true) 0 EmptyString w1 = (Normal tt, s', w2) /\
    _open s' = false /\ _native_handle s' = 3 /\
    shutdown s' 2 w2 = sys (sys_shutdown 3 2) w2 /\
    connect sock_address inet_addr s' 0 w2 = Some (0, sys (sys_connect 3 addr) w2).
Proof.
  cbv zeta.
  apply (closed_socket_still_reaches_kernel
           (fun (_ : string) (port family : Z) => mkSockaddr family port 0)
           (fun _ : string => 16777343)
           (mkProtocol 2 1 0) (mkAddress "127.0.0.1" 8080) 3 (World ∅ [] [] [])).
  - vm_compute. reflexivity.
  - lia.
  - unfold SHUT_RD, SHUT_RDWR. lia.
Defined.

Lemma descriptor_zero_is_never_closed_witness :
  let w1 := snd (Socket true (mkProtocol 2 1 0) (mkAddress "127.0.0.1" 8080) 0
                   (World ∅ [] [] [])) in
  let s := mkSocket 0 1 2 true true in
  closes s [(0, EmptyString); (0, EmptyString)] w1 = (replicate 2 (Normal tt), s, w1) /\
  shutdown s 2 w1 = w1 /\
  _open s = true.
Proof.
  cbv zeta.
  apply (descriptor_zero_is_never_closed true (mkProtocol 2 1 0)
           (mkAddress "127.0.0.1" 8080) (World ∅ [] [] [])).
  vm_compute. reflexivity.
Defined.

Lemma destructor_leaves_descriptor_open_witness :
  let w1 := snd (Socket true (mkProtocol 2 1 0) (mkAddress "127.0.0.1" 8080) 3
                   (World ∅ [] [] [])) in
  let s := mkSocket 3 1 2 true true in
  syscalls (destroy s w1) = syscalls w1 /\
  sys_close 3 ∉ syscalls (destroy s w1).
Proof.
  cbv zeta.
  apply (destructor_leaves_descriptor_open true (mkProtocol 2 1 0)
           (mkAddress "127.0.0.1" 8080) 3 (World ∅ [] [] [])).
  - vm_compute. reflexivity.
  - simpl. apply not_elem_of_nil.
Defined.


End SocketLifetime.
